(** * Snake game (window.py): shallow embedding and verified properties

    The class [SnakeGame] of [src/window.py] is embedded as a record of its
    attributes together with the state of the module-level [random]
    generator.  Every method that mutates [self] becomes a function from
    game to game; a method that also returns a value returns a pair.
    Rendering, fonts, images, sound and files are collaborators and are not
    part of the model. *)

From Stdlib Require Import ZArith List Bool String QArith Lia Lqa Sorted.
Import ListNotations.
Local Open Scope Z_scope.

(** ** Data model *)

Definition Pos : Type := (Z * Z)%type.
Definition Color : Type := (Z * Z * Z)%type.

Definition pos_eqb (p q : Pos) : bool :=
  (fst p =? fst q) && (snd p =? snd q).

(** [p in l] for a Python list of tuples. *)
Definition mem (p : Pos) (l : list Pos) : bool := existsb (pos_eqb p) l.

Inductive GameState : Type := MENU | PLAYING | PAUSED | GAME_OVER | SETTINGS.

Definition GameState_eqb (a b : GameState) : bool :=
  match a, b with
  | MENU, MENU | PLAYING, PLAYING | PAUSED, PAUSED
  | GAME_OVER, GAME_OVER | SETTINGS, SETTINGS => true
  | _, _ => false
  end.

(** The [settings] dictionary with its five keys. *)
Record Settings : Type := mkSettings {
  base_speed : Z;
  speed_increase : bool;
  grid_visible : bool;
  particles_enabled : bool;
  sound : bool
}.

Definition default_settings : Settings :=
  {| base_speed := 8; speed_increase := true; grid_visible := true;
     particles_enabled := true; sound := true |}.

(** An explosion particle.  The source keeps a float position and a float
    velocity [cos angle * speed, sin angle * speed]; the model keeps them in
    polar form around the integer cell centre: the angle as the fraction of
    a full turn that [uniform(0, 2*pi)] drew, the distance travelled along
    it, and the current speed. *)
Record Particle : Type := mkParticle {
  p_centre : Pos;
  p_turn : Q;
  p_travel : Q;
  p_speed : Q;
  p_life : Q;
  p_max_life : Z;
  p_color : Color
}.

(** An ambient food particle: it starts [fp_distance] away from the centre
    of the food cell and drifts inwards at speed one half. *)
Record FoodParticle : Type := mkFoodParticle {
  fp_centre : Pos;
  fp_turn : Q;
  fp_distance : Q;
  fp_life : Q;
  fp_max_life : Z;
  fp_size : Q
}.

(** State of the [random] module: one tape of integer draws and one tape of
    draws of [random.random()].  An exhausted tape yields zero. *)
Record Rng : Type := mkRng {
  ints : list Z;
  floats : list Q
}.

(** [random.randint a b]: an integer of [[a, b]]. *)
Definition randint (a b : Z) (r : Rng) : Z * Rng :=
  (a + hd 0 (ints r) mod (b - a + 1),
   {| ints := tl (ints r); floats := floats r |}).

(** [random.random()]. *)
Definition random (r : Rng) : Q * Rng :=
  (hd 0%Q (floats r), {| ints := ints r; floats := tl (floats r) |}).

(** [random.uniform a b] is [a + (b - a) * random()]. *)
Definition uniform (a b : Q) (r : Rng) : Q * Rng :=
  let '(u, r') := random r in ((a + (b - a) * u)%Q, r').

Record game : Type := mkGame {
  WIDTH : Z;
  HEIGHT : Z;
  GRID_WIDTH : Z;
  GRID_HEIGHT : Z;
  state : GameState;
  snake : list Pos;
  direction : Pos;
  next_direction : Pos;
  food_pos : Pos;
  score : Z;
  game_over_reason : string;
  particles : list Particle;
  food_particles : list FoodParticle;
  menu_animation_time : Z;
  game_over_animation_time : Z;
  settings : Settings;
  high_score : Z;
  rand : Rng
}.

(** Attribute assignment [self.f = v]. *)
Definition set_WIDTH (v : Z) (g : game) : game :=
  mkGame v (HEIGHT g) (GRID_WIDTH g) (GRID_HEIGHT g) (state g) (snake g)
    (direction g) (next_direction g) (food_pos g) (score g)
    (game_over_reason g) (particles g) (food_particles g)
    (menu_animation_time g) (game_over_animation_time g) (settings g)
    (high_score g) (rand g).
Definition set_HEIGHT (v : Z) (g : game) : game :=
  mkGame (WIDTH g) v (GRID_WIDTH g) (GRID_HEIGHT g) (state g) (snake g)
    (direction g) (next_direction g) (food_pos g) (score g)
    (game_over_reason g) (particles g) (food_particles g)
    (menu_animation_time g) (game_over_animation_time g) (settings g)
    (high_score g) (rand g).
Definition set_GRID_WIDTH (v : Z) (g : game) : game :=
  mkGame (WIDTH g) (HEIGHT g) v (GRID_HEIGHT g) (state g) (snake g)
    (direction g) (next_direction g) (food_pos g) (score g)
    (game_over_reason g) (particles g) (food_particles g)
    (menu_animation_time g) (game_over_animation_time g) (settings g)
    (high_score g) (rand g).
Definition set_GRID_HEIGHT (v : Z) (g : game) : game :=
  mkGame (WIDTH g) (HEIGHT g) (GRID_WIDTH g) v (state g) (snake g)
    (direction g) (next_direction g) (food_pos g) (score g)
    (game_over_reason g) (particles g) (food_particles g)
    (menu_animation_time g) (game_over_animation_time g) (settings g)
    (high_score g) (rand g).
Definition set_state (v : GameState) (g : game) : game :=
  mkGame (WIDTH g) (HEIGHT g) (GRID_WIDTH g) (GRID_HEIGHT g) v (snake g)
    (direction g) (next_direction g) (food_pos g) (score g)
    (game_over_reason g) (particles g) (food_particles g)
    (menu_animation_time g) (game_over_animation_time g) (settings g)
    (high_score g) (rand g).
Definition set_snake (v : list Pos) (g : game) : game :=
  mkGame (WIDTH g) (HEIGHT g) (GRID_WIDTH g) (GRID_HEIGHT g) (state g) v
    (direction g) (next_direction g) (food_pos g) (score g)
    (game_over_reason g) (particles g) (food_particles g)
    (menu_animation_time g) (game_over_animation_time g) (settings g)
    (high_score g) (rand g).
Definition set_direction (v : Pos) (g : game) : game :=
  mkGame (WIDTH g) (HEIGHT g) (GRID_WIDTH g) (GRID_HEIGHT g) (state g)
    (snake g) v (next_direction g) (food_pos g) (score g)
    (game_over_reason g) (particles g) (food_particles g)
    (menu_animation_time g) (game_over_animation_time g) (settings g)
    (high_score g) (rand g).
Definition set_next_direction (v : Pos) (g : game) : game :=
  mkGame (WIDTH g) (HEIGHT g) (GRID_WIDTH g) (GRID_HEIGHT g) (state g)
    (snake g) (direction g) v (food_pos g) (score g)
    (game_over_reason g) (particles g) (food_particles g)
    (menu_animation_time g) (game_over_animation_time g) (settings g)
    (high_score g) (rand g).
Definition set_food_pos (v : Pos) (g : game) : game :=
  mkGame (WIDTH g) (HEIGHT g) (GRID_WIDTH g) (GRID_HEIGHT g) (state g)
    (snake g) (direction g) (next_direction g) v (score g)
    (game_over_reason g) (particles g) (food_particles g)
    (menu_animation_time g) (game_over_animation_time g) (settings g)
    (high_score g) (rand g).
Definition set_score (v : Z) (g : game) : game :=
  mkGame (WIDTH g) (HEIGHT g) (GRID_WIDTH g) (GRID_HEIGHT g) (state g)
    (snake g) (direction g) (next_direction g) (food_pos g) v
    (game_over_reason g) (particles g) (food_particles g)
    (menu_animation_time g) (game_over_animation_time g) (settings g)
    (high_score g) (rand g).
Definition set_game_over_reason (v : string) (g : game) : game :=
  mkGame (WIDTH g) (HEIGHT g) (GRID_WIDTH g) (GRID_HEIGHT g) (state g)
    (snake g) (direction g) (next_direction g) (food_pos g) (score g)
    v (particles g) (food_particles g)
    (menu_animation_time g) (game_over_animation_time g) (settings g)
    (high_score g) (rand g).
Definition set_particles (v : list Particle) (g : game) : game :=
  mkGame (WIDTH g) (HEIGHT g) (GRID_WIDTH g) (GRID_HEIGHT g) (state g)
    (snake g) (direction g) (next_direction g) (food_pos g) (score g)
    (game_over_reason g) v (food_particles g)
    (menu_animation_time g) (game_over_animation_time g) (settings g)
    (high_score g) (rand g).
Definition set_food_particles (v : list FoodParticle) (g : game) : game :=
  mkGame (WIDTH g) (HEIGHT g) (GRID_WIDTH g) (GRID_HEIGHT g) (state g)
    (snake g) (direction g) (next_direction g) (food_pos g) (score g)
    (game_over_reason g) (particles g) v
    (menu_animation_time g) (game_over_animation_time g) (settings g)
    (high_score g) (rand g).
Definition set_game_over_animation_time (v : Z) (g : game) : game :=
  mkGame (WIDTH g) (HEIGHT g) (GRID_WIDTH g) (GRID_HEIGHT g) (state g)
    (snake g) (direction g) (next_direction g) (food_pos g) (score g)
    (game_over_reason g) (particles g) (food_particles g)
    (menu_animation_time g) v (settings g)
    (high_score g) (rand g).
Definition set_high_score (v : Z) (g : game) : game :=
  mkGame (WIDTH g) (HEIGHT g) (GRID_WIDTH g) (GRID_HEIGHT g) (state g)
    (snake g) (direction g) (next_direction g) (food_pos g) (score g)
    (game_over_reason g) (particles g) (food_particles g)
    (menu_animation_time g) (game_over_animation_time g) (settings g)
    v (rand g).
Definition set_rand (v : Rng) (g : game) : game :=
  mkGame (WIDTH g) (HEIGHT g) (GRID_WIDTH g) (GRID_HEIGHT g) (state g)
    (snake g) (direction g) (next_direction g) (food_pos g) (score g)
    (game_over_reason g) (particles g) (food_particles g)
    (menu_animation_time g) (game_over_animation_time g) (settings g)
    (high_score g) v.

(** ** Constants of [__init__] *)

Definition CELL_SIZE : Z := 25.
Definition MIN_WIDTH : Z := 600.
Definition MIN_HEIGHT : Z := 400.
Definition DEFAULT_WIDTH : Z := 1000.
Definition DEFAULT_HEIGHT : Z := 700.
Definition COLORS_food : Color := (239, 68, 68).
Definition COLORS_success : Color := (34, 197, 94).

(** ** Grid *)

(** [update_grid_dimensions]: Python's [//] on a positive divisor is the
    floor division [Z.div]. *)
Definition update_grid_dimensions (g : game) : game :=
  let g := set_GRID_WIDTH (WIDTH g / CELL_SIZE) g in
  set_GRID_HEIGHT (HEIGHT g / CELL_SIZE) g.

(** [range(start, stop, step)] for a positive step. *)
Definition py_range (start stop step : Z) : list Z :=
  map (fun i => start + Z.of_nat i * step)
      (seq 0 (Z.to_nat ((stop - start + step - 1) / step))).

(** ** Food spawner *)

(** The [while attempts < max_attempts] loop of [spawn_food], with the
    number of attempts left as the structural argument. *)
Fixpoint spawn_trials (n : nat) (g : game) : option Pos * game :=
  match n with
  | O => (None, g)
  | S n' =>
      let '(rx, r1) := randint 0 (Z.max 0 (GRID_WIDTH g - 1)) (rand g) in
      let x := rx * CELL_SIZE in
      let '(ry, r2) := randint 0 (Z.max 0 (GRID_HEIGHT g - 1)) r1 in
      let y := ry * CELL_SIZE in
      let g' := set_rand r2 g in
      if negb (mem (x, y) (snake g')) then (Some (x, y), g')
      else spawn_trials n' g'
  end.

(** The inner loop of the fallback: [for y in range(0, HEIGHT, CELL_SIZE)]
    at a fixed [x]. *)
Fixpoint scan_column (x : Z) (ys : list Z) (occ : list Pos) : option Pos :=
  match ys with
  | [] => None
  | y :: ys' =>
      if negb (mem (x, y) occ) then Some (x, y) else scan_column x ys' occ
  end.

(** The outer loop: [for x in range(0, WIDTH, CELL_SIZE)]. *)
Fixpoint scan_grid (xs ys : list Z) (occ : list Pos) : option Pos :=
  match xs with
  | [] => None
  | x :: xs' =>
      match scan_column x ys occ with
      | Some p => Some p
      | None => scan_grid xs' ys occ
      end
  end.

Definition fallback_scan (g : game) : option Pos :=
  scan_grid (py_range 0 (WIDTH g) CELL_SIZE)
            (py_range 0 (HEIGHT g) CELL_SIZE) (snake g).

Definition max_attempts : nat := 100.

Definition spawn_food (g : game) : Pos * game :=
  let g := update_grid_dimensions g in
  match spawn_trials max_attempts g with
  | (Some p, g') => (p, g')
  | (None, g') =>
      match fallback_scan g' with
      | Some p => (p, g')
      | None => ((CELL_SIZE, CELL_SIZE), g')
      end
  end.

(** ** Particle system (creation only; particles never feed back into play) *)

Definition cell_centre (pos : Pos) : Pos :=
  (fst pos + CELL_SIZE / 2, snd pos + CELL_SIZE / 2).

(** The [for _ in range(count)] loop of [create_particles]. *)
Fixpoint emit_particles (count : nat) (pos : Pos) (color : Color)
    (g : game) : game :=
  match count with
  | O => g
  | S count' =>
      let '(turn, r1) := random (rand g) in
      let '(speed, r2) := uniform 2 6 r1 in
      let '(life, r3) := uniform 30 60 r2 in
      let p := mkParticle (cell_centre pos) turn 0 speed life 60 color in
      emit_particles count' pos color
        (set_rand r3 (set_particles (particles g ++ [p]) g))
  end.

Definition create_particles (pos : Pos) (color : Color) (count : nat)
    (g : game) : game :=
  if negb (particles_enabled (settings g)) then g
  else emit_particles count pos color g.

Definition create_food_particles (pos : Pos) (g : game) : game :=
  if negb (particles_enabled (settings g)) then g
  else
    let '(u, r0) := random (rand g) in
    if negb (Qle_bool (1 # 10) u) then
      let '(turn, r1) := random r0 in
      let '(distance, r2) := uniform 15 25 r1 in
      let '(life, r3) := uniform 60 90 r2 in
      let '(size, r4) := uniform 1 3 r3 in
      let p := mkFoodParticle (cell_centre pos) turn distance life 90 size in
      set_rand r4 (set_food_particles (food_particles g ++ [p]) g)
    else set_rand r0 g.

(** [update_particles]: every particle moves by its velocity and ages by
    one frame, explosion particles are damped by 0.95, and the particles
    whose life has run out are removed. *)
Definition step_particle (p : Particle) : Particle :=
  mkParticle (p_centre p) (p_turn p) (p_travel p + p_speed p)%Q
    (p_speed p * (95 # 100))%Q (p_life p - 1)%Q (p_max_life p) (p_color p).

Definition step_food_particle (p : FoodParticle) : FoodParticle :=
  mkFoodParticle (fp_centre p) (fp_turn p) (fp_distance p - (1 # 2))%Q
    (fp_life p - 1)%Q (fp_max_life p) (fp_size p).

Definition update_particles (g : game) : game :=
  let g :=
    set_particles
      (filter (fun p => negb (Qle_bool (p_life p) 0))
              (map step_particle (particles g))) g in
  set_food_particles
    (filter (fun p => negb (Qle_bool (fp_life p) 0))
            (map step_food_particle (food_particles g))) g.

(** ** Game state machine *)

Definition save_high_score (g : game) : game :=
  if score g >? high_score g then set_high_score (score g) g else g.

Definition game_over (reason : string) (g : game) : game :=
  let g := set_game_over_reason reason g in
  let g := save_high_score g in
  let g := set_state GAME_OVER g in
  match snake g with
  | [] => g
  | head :: _ => create_particles head COLORS_food 20 g
  end.

Definition reset_game (g : game) : game :=
  let g := update_grid_dimensions g in
  let center_x := (GRID_WIDTH g / 2) * CELL_SIZE in
  let center_y := (GRID_HEIGHT g / 2) * CELL_SIZE in
  let g := set_snake [(center_x, center_y)] g in
  let g := set_direction (0, 0) g in
  let g := set_next_direction (0, 0) g in
  let '(food, g) := spawn_food g in
  let g := set_food_pos food g in
  let g := set_score 0 g in
  let g := set_game_over_reason EmptyString g in
  let g := set_particles [] g in
  let g := set_food_particles [] g in
  set_game_over_animation_time 0 g.

(** ** Resize coordinator *)

(** The test of [check_bounds_after_resize] on one segment. *)
Definition within (g : game) (segment : Pos) : bool :=
  let '(x, y) := segment in
  (x <? WIDTH g) && (y <? HEIGHT g) && (x >=? 0) && (y >=? 0).

Definition resize_reason : string := "Screen resized - snake out of bounds!".

Definition is_empty {A : Type} (l : list A) : bool :=
  match l with [] => true | _ => false end.

Definition check_bounds_after_resize (g : game) : game :=
  let g :=
    if (fst (food_pos g) >=? WIDTH g) || (snd (food_pos g) >=? HEIGHT g)
    then let '(food, g') := spawn_food g in set_food_pos food g'
    else g in
  let valid_snake := filter (within g) (snake g) in
  if is_empty valid_snake
     || match snake g with
        | [] => false
        | head :: _ => negb (mem head valid_snake)
        end
  then game_over resize_reason g
  else
    let g := set_snake valid_snake g in
    if is_empty (snake g) then game_over resize_reason g else g.

(** [handle_resize]; the display, the fonts and the food image are
    rendering collaborators.  [hasattr(self, 'snake')] holds from
    [__init__] on. *)
Definition handle_resize (new_width new_height : Z) (g : game) : game :=
  let new_width := Z.max new_width MIN_WIDTH in
  let new_height := Z.max new_height MIN_HEIGHT in
  let new_width := (new_width / CELL_SIZE) * CELL_SIZE in
  let new_height := (new_height / CELL_SIZE) * CELL_SIZE in
  let g := set_HEIGHT new_height (set_WIDTH new_width g) in
  let g := update_grid_dimensions g in
  if GameState_eqb (state g) PLAYING then check_bounds_after_resize g
  else g.

(** ** Input *)

Inductive Key : Type :=
  | K_ESCAPE | K_RETURN | K_SPACE
  | K_UP | K_DOWN | K_LEFT | K_RIGHT
  | K_w | K_a | K_s | K_d
  | K_r | K_m | K_q
  | K_other.

Inductive Event : Type :=
  | QUIT
  | VIDEORESIZE (w h : Z)
  | KEYDOWN (key : Key)
  | OtherEvent.

Definition Key_eqb (a b : Key) : bool :=
  match a, b with
  | K_ESCAPE, K_ESCAPE | K_RETURN, K_RETURN | K_SPACE, K_SPACE
  | K_UP, K_UP | K_DOWN, K_DOWN | K_LEFT, K_LEFT | K_RIGHT, K_RIGHT
  | K_w, K_w | K_a, K_a | K_s, K_s | K_d, K_d
  | K_r, K_r | K_m, K_m | K_q, K_q | K_other, K_other => true
  | _, _ => false
  end.

(** [key in [k1, k2]]. *)
Definition key_in (k : Key) (ks : list Key) : bool := existsb (Key_eqb k) ks.

(** Handlers that return the [running] flag return it with the game. *)
Definition handle_menu_events (event : Event) (g : game) : bool * game :=
  match event with
  | KEYDOWN key =>
      if Key_eqb key K_SPACE || Key_eqb key K_RETURN then
        (true, reset_game (set_state PLAYING g))
      else if Key_eqb key K_s then (true, set_state SETTINGS g)
      else if Key_eqb key K_ESCAPE || Key_eqb key K_q then (false, g)
      else (true, g)
  | _ => (true, g)
  end.

Definition handle_playing_events (event : Event) (g : game) : game :=
  match event with
  | KEYDOWN key =>
      if Key_eqb key K_ESCAPE then set_state PAUSED g
      else if Key_eqb key K_r then reset_game g
      else if key_in key [K_UP; K_w] && (snd (direction g) =? 0) then
        set_next_direction (0, - CELL_SIZE) g
      else if key_in key [K_DOWN; K_s] && (snd (direction g) =? 0) then
        set_next_direction (0, CELL_SIZE) g
      else if key_in key [K_LEFT; K_a] && (fst (direction g) =? 0) then
        set_next_direction (- CELL_SIZE, 0) g
      else if key_in key [K_RIGHT; K_d] && (fst (direction g) =? 0) then
        set_next_direction (CELL_SIZE, 0) g
      else g
  | _ => g
  end.

Definition handle_paused_events (event : Event) (g : game) : game :=
  match event with
  | KEYDOWN key =>
      if Key_eqb key K_SPACE || Key_eqb key K_ESCAPE then set_state PLAYING g
      else if Key_eqb key K_m then set_state MENU g
      else if Key_eqb key K_r then set_state PLAYING (reset_game g)
      else g
  | _ => g
  end.

Definition handle_game_over_events (event : Event) (g : game) : bool * game :=
  match event with
  | KEYDOWN key =>
      if Key_eqb key K_r || Key_eqb key K_SPACE then
        (true, set_state PLAYING (reset_game g))
      else if Key_eqb key K_m then (true, set_state MENU g)
      else if Key_eqb key K_ESCAPE || Key_eqb key K_q then (false, g)
      else (true, g)
  | _ => (true, g)
  end.

(** ** Snake engine *)

(** The direction committed by the first statement of [update_game]. *)
Definition committed (g : game) : Pos :=
  if negb (pos_eqb (next_direction g) (0, 0)) then next_direction g
  else direction g.

Definition wall_reason : string := "Hit the wall!".
Definition self_reason : string := "Ate yourself!".

(** [list.pop()] on a non-empty list drops the last element. *)
Definition pop_last {A : Type} (l : list A) : list A := removelast l.
Arguments pop_last : simpl never.

(** [update_game].  [None] is the [IndexError] that [self.snake[0]] raises
    on an empty snake. *)
Definition update_game (g : game) : option game :=
  if negb (GameState_eqb (state g) PLAYING) then Some g
  else
    let g := set_direction (committed g) g in
    if pos_eqb (direction g) (0, 0) then Some g
    else
      match snake g with
      | [] => None
      | (head_x, head_y) :: _ =>
          let new_head :=
            (head_x + fst (direction g), head_y + snd (direction g)) in
          if (fst new_head <? 0) || (fst new_head >=? WIDTH g)
             || (snd new_head <? 0) || (snd new_head >=? HEIGHT g)
          then Some (game_over wall_reason g)
          else if mem new_head (snake g)
          then Some (game_over self_reason g)
          else
            let g := set_snake (new_head :: snake g) g in
            let g :=
              if pos_eqb new_head (food_pos g) then
                let g := set_score (score g + 1) g in
                let g := create_particles (food_pos g) COLORS_success 15 g in
                let '(food, g) := spawn_food g in
                set_food_pos food g
              else set_snake (pop_last (snake g)) g in
            Some (create_food_particles (food_pos g) g)
      end.

(** ** Frame loop *)

(** The [for event in pygame.event.get()] loop of [run], threading the
    [running] flag; [QUIT] breaks out of the loop. *)
Fixpoint pump (events : list Event) (running : bool) (g : game)
    : bool * game :=
  match events with
  | [] => (running, g)
  | QUIT :: _ => (false, g)
  | VIDEORESIZE w h :: rest => pump rest running (handle_resize w h g)
  | event :: rest =>
      match state g with
      | MENU =>
          let '(running', g') := handle_menu_events event g in
          pump rest running' g'
      | PLAYING => pump rest running (handle_playing_events event g)
      | PAUSED => pump rest running (handle_paused_events event g)
      | GAME_OVER =>
          let '(running', g') := handle_game_over_events event g in
          pump rest running' g'
      | SETTINGS => pump rest running g
      end
  end.

(** One iteration of the [while running] loop, without the drawing. *)
Definition frame (events : list Event) (g : game) : option (bool * game) :=
  let '(running, g) := pump events true g in
  match update_game g with
  | None => None
  | Some g => Some (running, update_particles g)
  end.

(** Frames played one after the other while the game keeps running. *)
Fixpoint frames (inputs : list (list Event)) (g : game) : option game :=
  match inputs with
  | [] => Some g
  | events :: rest =>
      match frame events g with
      | Some (true, g') => frames rest g'
      | Some (false, g') => Some g'
      | None => None
      end
  end.

(** The game that [__init__] builds from the loaded settings, the loaded
    high score and the state of the random generator.  [reset_game] assigns
    every attribute that the placeholder record leaves empty. *)
Definition init (s : Settings) (hs : Z) (r : Rng) : game :=
  let g :=
    mkGame DEFAULT_WIDTH DEFAULT_HEIGHT 0 0 MENU [] (0, 0) (0, 0) (0, 0) 0
      EmptyString [] [] 0 0 s hs r in
  let g := update_grid_dimensions g in
  let g := reset_game g in
  set_food_particles [] (set_particles [] g).

(** ** Sample games *)

(** A game in play on a window of the given size, with the default
    settings, no particles and exhausted random tapes. *)
Definition playing (width height : Z) (body : list Pos)
    (dir next food : Pos) : game :=
  mkGame width height (width / CELL_SIZE) (height / CELL_SIZE) PLAYING
    body dir next food 0 EmptyString [] [] 0 0 default_settings 0
    (mkRng [] []).

(** The snake alone in the middle of the default window, going up. *)
Definition going_up : game :=
  playing 1000 700 [(500, 350)] (0, -25) (0, 0) (0, 0).

(** A snake of five segments curled beyond the right edge of a window of
    600 by 400, heading left with an upward turn buffered. *)
Definition curled_outside : game :=
  playing 600 400
    [(600, 375); (625, 375); (625, 350); (600, 350); (575, 350)]
    (-25, 0) (0, -25) (0, 0).

(** A snake of four segments filling a square, heading left with a downward
    turn buffered: the cell below the head is the tail. *)
Definition square_snake : game :=
  playing 1000 700 [(500, 350); (525, 350); (525, 375); (500, 375)]
    (-25, 0) (0, 25) (0, 0).

(** The snake arrived in the top left corner going up, with a left turn
    buffered. *)
Definition turning_into_wall : game :=
  playing 1000 700 [(0, 0)] (0, -25) (-25, 0) (50, 50).

(** The smallest window, with a snake of two segments that has just
    reached the top left cell going left.  The exhausted random tape draws
    index zero every time, so every trial of [spawn_food] lands on the
    head. *)
Definition in_corner : game :=
  playing 600 400 [(0, 0); (25, 0)] (-25, 0) (0, 0) (0, 0).

(** Every cell of a window, column by column. *)
Definition all_cells (width height : Z) : list Pos :=
  flat_map (fun x => map (fun y => (x, y)) (py_range 0 height CELL_SIZE))
           (py_range 0 width CELL_SIZE).

(** The smallest window with every cell occupied. *)
Definition full_board : game :=
  playing 600 400 (all_cells 600 400) (0, 0) (0, 0) (0, 0).

(** A snake of two segments in the lower right part of the default
    window, going right. *)
Definition far_right : game :=
  playing 1000 700 [(800, 500); (775, 500)] (25, 0) (0, 0) (100, 100).

(** ** Specification vocabulary *)

(** A position inside [[0, width) x [0, height)], as a proposition and as
    a test. *)
Definition inside (width height : Z) (p : Pos) : Prop :=
  0 <= fst p < width /\ 0 <= snd p < height.

Definition insideb (width height : Z) (p : Pos) : bool :=
  (0 <=? fst p) && (fst p <? width) && (0 <=? snd p) && (snd p <? height).

(** A position inside the current window. *)
Definition in_bounds (g : game) (p : Pos) : Prop :=
  inside (WIDTH g) (HEIGHT g) p.

(** A requested window extent, raised to the minimum and snapped down to a
    whole number of cells. *)
Definition snapped (extent lowest : Z) : Z :=
  Z.max extent lowest / CELL_SIZE * CELL_SIZE.

(** A grid cell in pixel coordinates. *)
Definition grid_cell (g : game) (p : Pos) : Prop :=
  fst p mod CELL_SIZE = 0 /\ snd p mod CELL_SIZE = 0 /\ in_bounds g p.

(** The snake invariant of the data model. *)
Definition snake_inv (g : game) : Prop :=
  snake g <> [] /\ NoDup (snake g) /\ Forall (in_bounds g) (snake g).

(** The four directions of travel and their vectors. *)
Inductive Dir : Type := Up | Down | Left | Right.

Definition vec (d : Dir) : Pos :=
  match d with
  | Up => (0, - CELL_SIZE)
  | Down => (0, CELL_SIZE)
  | Left => (- CELL_SIZE, 0)
  | Right => (CELL_SIZE, 0)
  end.

Definition opposite (d : Dir) : Dir :=
  match d with Up => Down | Down => Up | Left => Right | Right => Left end.

(** The keys that request a direction. *)
Definition keys_of (r : Dir) : list Key :=
  match r with
  | Up => [K_UP; K_w]
  | Down => [K_DOWN; K_s]
  | Left => [K_LEFT; K_a]
  | Right => [K_RIGHT; K_d]
  end.

(** Two directions are perpendicular when their vectors have a zero dot
    product. *)
Definition perpendicular (r d : Dir) : bool :=
  fst (vec r) * fst (vec d) + snd (vec r) * snd (vec d) =? 0.

(** The cell the head moves to. *)
Definition new_head_of (g : game) : option Pos :=
  match snake g with
  | [] => None
  | (head_x, head_y) :: _ =>
      Some (head_x + fst (committed g), head_y + snd (committed g))
  end.

(** The attributes that neither the end of a game nor a particle burst
    touches. *)
Definition board_kept (g g' : game) : Prop :=
  WIDTH g' = WIDTH g /\ HEIGHT g' = HEIGHT g
  /\ GRID_WIDTH g' = GRID_WIDTH g /\ GRID_HEIGHT g' = GRID_HEIGHT g
  /\ snake g' = snake g /\ food_pos g' = food_pos g /\ score g' = score g
  /\ next_direction g' = next_direction g
  /\ food_particles g' = food_particles g
  /\ menu_animation_time g' = menu_animation_time g
  /\ game_over_animation_time g' = game_over_animation_time g
  /\ settings g' = settings g.

(** Cells in the order of the scan: column by column, each column from
    the top down. *)
Definition column_major_le (p q : Pos) : Prop :=
  fst p < fst q \/ (fst p = fst q /\ snd p <= snd q).

(** Cells row by row, each row from left to right. *)
Definition row_major_le (p q : Pos) : Prop :=
  snd p < snd q \/ (snd p = snd q /\ fst p <= fst q).

(** The claim C2 as it is worded: whenever the new head is on the snake,
    the game ends with "Ate yourself!". *)
Definition self_collision_claim : Prop :=
  forall g nh,
    state g = PLAYING ->
    committed g <> (0, 0) ->
    new_head_of g = Some nh ->
    In nh (snake g) ->
    exists g', update_game g = Some g'
               /\ state g' = GAME_OVER
               /\ game_over_reason g' = self_reason.

(** The claim C10 as it is worded: after a step that ended the game, every
    attribute other than the state, the reason, the high score and the
    particle pools is as before. *)
Definition step_atomic_claim : Prop :=
  forall g g',
    state g = PLAYING ->
    update_game g = Some g' ->
    state g' = GAME_OVER ->
    board_kept g g' /\ direction g' = direction g.

(** The claim C7 as it is worded: when every random trial collides, the
    cell returned is the first free grid cell in row-major order. *)
Definition fallback_row_major_claim : Prop :=
  forall g q,
    fst (spawn_trials max_attempts (update_grid_dimensions g)) = None ->
    grid_cell g q -> ~ In q (snake g) ->
    grid_cell g (fst (spawn_food g))
    /\ ~ In (fst (spawn_food g)) (snake g)
    /\ row_major_le (fst (spawn_food g)) q.

(** The window is at least as large as the minimum. *)
Definition window_ok (g : game) : Prop :=
  MIN_WIDTH <= WIDTH g /\ MIN_HEIGHT <= HEIGHT g.

(** The food is not left of or above the window. *)
Definition food_nonneg (g : game) : Prop :=
  0 <= fst (food_pos g) /\ 0 <= snd (food_pos g).

(** A play that leads to [curled_outside]: the random tape puts four foods
    in a row to the right of the start, the snake eats them, curls down and
    back, the game is paused and the window shrunk to the minimum. *)
Definition curl_tape : Rng :=
  mkRng [0; 0; 21; 14; 22; 14; 23; 14; 24; 14; 0; 0] [].

Definition curl_inputs : list (list Event) :=
  [ [KEYDOWN K_SPACE]; [KEYDOWN K_RIGHT]; []; []; []; [];
    [KEYDOWN K_DOWN]; [KEYDOWN K_LEFT]; [KEYDOWN K_ESCAPE];
    [VIDEORESIZE 600 400] ].

(** ** Frame rate *)

(** The [fps] of [run], which [draw_hud] shows as the current speed. *)
Definition fps (g : game) : Z :=
  base_speed (settings g)
  + (if speed_increase (settings g) then score g / 3 else 0).

(** ** Vocabulary of the play invariants *)

(** The snake of a running game: not empty, no cell twice, and never longer
    than the score allows. *)
Definition snake_ok (g : game) : Prop :=
  snake g <> [] /\ NoDup (snake g)
  /\ 0 <= score g
  /\ Z.of_nat (List.length (snake g)) <= score g + 1.


(** The number of cells of the smallest window. *)
Definition min_cells : Z := (MIN_WIDTH / CELL_SIZE) * (MIN_HEIGHT / CELL_SIZE).

(** The food of a running game is off the snake while the score leaves a
    cell of the smallest window free. *)
Definition food_off_snake (g : game) : Prop :=
  window_ok g
  /\ Z.of_nat (List.length (snake g)) <= score g + 1
  /\ (score g + 1 < min_cells -> ~ In (food_pos g) (snake g)).

(** Events other than a resize of the window. *)
Definition no_resize (events : list Event) : bool :=
  forallb (fun event =>
             match event with VIDEORESIZE _ _ => false | _ => true end)
          events.

(** The window of a running game: at least the minimum, whole cells, and
    the cached grid extents in step with it. *)
Definition grid_ok (g : game) : Prop :=
  window_ok g
  /\ WIDTH g mod CELL_SIZE = 0 /\ HEIGHT g mod CELL_SIZE = 0
  /\ GRID_WIDTH g = WIDTH g / CELL_SIZE
  /\ GRID_HEIGHT g = HEIGHT g / CELL_SIZE.



(** The game a play ends in; the game it started from if it raised. *)
Definition after_play (inputs : list (list Event)) (g : game) : game :=
  match frames inputs g with
  | Some g' => g'
  | None => g
  end.

(** The paused game that [curl_inputs] leads to. *)
Definition curl_game : game :=
  after_play curl_inputs (init default_settings 0 curl_tape).

(** A play that starts the game, goes right and turns down. *)
Definition turn_inputs : list (list Event) :=
  [ [KEYDOWN K_SPACE]; [KEYDOWN K_RIGHT]; [KEYDOWN K_DOWN] ].

Definition turn_game : game :=
  after_play turn_inputs (init default_settings 0 curl_tape).


(** What a step did, read off its result. *)
Inductive step_outcome (g g' : game) : Prop :=
  | step_skipped :
      state g <> PLAYING -> g' = g -> step_outcome g g'
  | step_waiting :
      state g = PLAYING -> committed g = (0, 0) ->
      g' = set_direction (committed g) g -> step_outcome g g'
  | step_collided (nh : Pos) :
      state g = PLAYING -> committed g <> (0, 0) ->
      new_head_of g = Some nh ->
      ~ in_bounds g nh \/ In nh (snake g) ->
      state g' = GAME_OVER ->
      game_over_reason g' = (if within g nh then self_reason else wall_reason) ->
      direction g' = committed g ->
      board_kept g g' ->
      high_score g' = Z.max (high_score g) (score g) ->
      step_outcome g g'
  | step_ate (nh : Pos) (g0 : game) :
      state g = PLAYING -> committed g <> (0, 0) ->
      new_head_of g = Some nh ->
      in_bounds g nh -> ~ In nh (snake g) -> nh = food_pos g ->
      state g' = PLAYING ->
      WIDTH g' = WIDTH g -> HEIGHT g' = HEIGHT g ->
      direction g' = committed g ->
      next_direction g' = next_direction g ->
      high_score g' = high_score g -> settings g' = settings g ->
      snake g' = nh :: snake g -> score g' = score g + 1 ->
      food_pos g' = fst (spawn_food g0) ->
      snake g0 = nh :: snake g ->
      WIDTH g0 = WIDTH g -> HEIGHT g0 = HEIGHT g ->
      GRID_WIDTH g' = WIDTH g / CELL_SIZE ->
      GRID_HEIGHT g' = HEIGHT g / CELL_SIZE ->
      step_outcome g g'
  | step_moved (nh : Pos) :
      state g = PLAYING -> committed g <> (0, 0) ->
      new_head_of g = Some nh ->
      in_bounds g nh -> ~ In nh (snake g) -> nh <> food_pos g ->
      state g' = PLAYING ->
      WIDTH g' = WIDTH g -> HEIGHT g' = HEIGHT g ->
      direction g' = committed g ->
      next_direction g' = next_direction g ->
      high_score g' = high_score g -> settings g' = settings g ->
      snake g' = pop_last (nh :: snake g) -> score g' = score g ->
      food_pos g' = food_pos g ->
      GRID_WIDTH g' = GRID_WIDTH g -> GRID_HEIGHT g' = GRID_HEIGHT g ->
      step_outcome g g'.

(** ** Basic facts *)

Lemma pos_eqb_eq (p q : Pos) : pos_eqb p q = true <-> p = q.
Proof.
  destruct p as [a b], q as [c d]; unfold pos_eqb; simpl.
  rewrite andb_true_iff, !Z.eqb_eq. split.
  - intros [-> ->]; reflexivity.
  - intros H; inversion H; auto.
Qed.

Lemma pos_eqb_neq (p q : Pos) : pos_eqb p q = false <-> p <> q.
Proof.
  rewrite <- pos_eqb_eq. destruct (pos_eqb p q); split; congruence.
Qed.

Lemma mem_In (p : Pos) (l : list Pos) : mem p l = true <-> In p l.
Proof.
  unfold mem. rewrite existsb_exists. split.
  - intros [q [Hq He]]. apply pos_eqb_eq in He. subst; assumption.
  - intros H. exists p. split; [assumption | apply pos_eqb_eq; reflexivity].
Qed.

Lemma mem_not_In (p : Pos) (l : list Pos) : mem p l = false <-> ~ In p l.
Proof.
  rewrite <- mem_In. destruct (mem p l); split; congruence.
Qed.

Lemma within_spec (g : game) (p : Pos) :
  within g p = true <-> in_bounds g p.
Proof.
  destruct p as [x y]; unfold within, in_bounds, inside; simpl.
  rewrite !andb_true_iff, !Z.ltb_lt, !Z.geb_le. lia.
Qed.

Lemma GameState_eqb_eq (a b : GameState) :
  GameState_eqb a b = true <-> a = b.
Proof. destruct a, b; simpl; split; congruence. Qed.

(** ** Turning *)

(** C1.  With current direction [d] and a key that requests direction [r],
    the request ends up in [next_direction], whatever was buffered before,
    if and only if [r] is perpendicular to [d]; a request that is not
    perpendicular, and in particular the reversal of [d], leaves the game,
    hence [next_direction], unchanged. *)
Theorem turn_accepted_iff_perpendicular (g : game) (d r : Dir) (key : Key) :
  direction g = vec d ->
  In key (keys_of r) ->
  ((forall buffered,
       next_direction
         (handle_playing_events (KEYDOWN key)
            (set_next_direction buffered g)) = vec r)
    <-> perpendicular r d = true)
  /\ (perpendicular r d = false ->
      handle_playing_events (KEYDOWN key) g = g)
  /\ (r = opposite d ->
      handle_playing_events (KEYDOWN key) g = g
      /\ next_direction (handle_playing_events (KEYDOWN key) g)
         = next_direction g).
Proof.
  intros Hd Hk.
  assert (Hrej : perpendicular r d = false ->
                 forall g0, direction g0 = vec d ->
                 handle_playing_events (KEYDOWN key) g0 = g0).
  { intros Hp g0 Hg0. unfold handle_playing_events. rewrite Hg0.
    destruct d, r; try discriminate Hp; simpl in Hk;
      destruct Hk as [<- | [<- | []]]; reflexivity. }
  assert (Hacc : perpendicular r d = true ->
                 forall g0, direction g0 = vec d ->
                 handle_playing_events (KEYDOWN key) g0
                 = set_next_direction (vec r) g0).
  { intros Hp g0 Hg0. unfold handle_playing_events. rewrite Hg0.
    destruct d, r; try discriminate Hp; simpl in Hk;
      destruct Hk as [<- | [<- | []]]; reflexivity. }
  split; [split | split].
  - intros Hall. destruct (perpendicular r d) eqn:Hp; [reflexivity |].
    exfalso.
    pose (b := if pos_eqb (vec r) (0, 0) then (1, 1) else (0, 0) : Pos).
    specialize (Hall b).
    rewrite (Hrej eq_refl (set_next_direction b g) Hd) in Hall.
    simpl in Hall. subst b. destruct r; discriminate Hall.
  - intros Hp buffered. rewrite (Hacc Hp (set_next_direction buffered g) Hd). reflexivity.
  - intros Hp. apply (Hrej Hp g Hd).
  - intros ->.
    assert (Hp : perpendicular (opposite d) d = false)
      by (destruct d; reflexivity).
    rewrite (Hrej Hp g Hd). split; reflexivity.
Qed.

Lemma turn_accepted_iff_perpendicular_witness :
  ((forall buffered,
       next_direction
         (handle_playing_events (KEYDOWN K_a)
            (set_next_direction buffered going_up)) = vec Left)
    <-> perpendicular Left Up = true)
  /\ handle_playing_events (KEYDOWN K_s) going_up = going_up.
Proof.
  split.
  - apply (turn_accepted_iff_perpendicular going_up Up Left K_a);
      [reflexivity | simpl; auto].
  - apply (turn_accepted_iff_perpendicular going_up Up Down K_s);
      [reflexivity | simpl; auto | reflexivity].
Defined.

(** ** What the helpers leave alone *)

Lemma emit_particles_shape (count : nat) (pos : Pos) (color : Color) :
  forall g, exists ps r,
    emit_particles count pos color g = set_rand r (set_particles ps g).
Proof.
  induction count as [| count IH]; intros g.
  - exists (particles g), (rand g). destruct g; reflexivity.
  - simpl. match goal with |- context [emit_particles count pos color ?g1] =>
      destruct (IH g1) as [ps [r ->]] end.
    exists ps, r. destruct g; reflexivity.
Qed.

Lemma create_particles_shape (pos : Pos) (color : Color) (count : nat)
    (g : game) :
  exists ps r, create_particles pos color count g
               = set_rand r (set_particles ps g).
Proof.
  unfold create_particles. destruct (negb (particles_enabled (settings g))).
  - exists (particles g), (rand g). destruct g; reflexivity.
  - apply emit_particles_shape.
Qed.

Lemma game_over_shape (reason : string) (g : game) :
  exists ps r,
    game_over reason g
    = set_rand r (set_particles ps
        (set_state GAME_OVER
           (save_high_score (set_game_over_reason reason g)))).
Proof.
  unfold game_over.
  set (g1 := set_state GAME_OVER _).
  destruct (snake g1) as [| head rest].
  - exists (particles g1), (rand g1). destruct g1; reflexivity.
  - apply create_particles_shape.
Qed.

Lemma save_high_score_shape (g : game) :
  exists hs, save_high_score g = set_high_score hs g.
Proof.
  unfold save_high_score. destruct (score g >? high_score g).
  - eexists; reflexivity.
  - exists (high_score g). destruct g; reflexivity.
Qed.

Lemma spawn_trials_shape (n : nat) :
  forall g, exists r, snd (spawn_trials n g) = set_rand r g.
Proof.
  induction n as [| n IH]; intros g.
  - exists (rand g). destruct g; reflexivity.
  - simpl. match goal with |- context [negb (mem ?p ?s)] =>
      destruct (negb (mem p s)) end.
    + eexists; reflexivity.
    + match goal with |- context [spawn_trials n ?g1] =>
        destruct (IH g1) as [r ->] end.
      exists r. destruct g; reflexivity.
Qed.

Lemma spawn_food_shape (g : game) :
  exists r, snd (spawn_food g) = set_rand r (update_grid_dimensions g).
Proof.
  unfold spawn_food.
  destruct (spawn_trials_shape max_attempts (update_grid_dimensions g))
    as [r Hr].
  destruct (spawn_trials max_attempts (update_grid_dimensions g))
    as [[p |] g']; simpl in Hr; subst g'.
  - exists r; reflexivity.
  - destruct (fallback_scan _); exists r; reflexivity.
Qed.

Lemma game_over_spec (reason : string) (g : game) :
  state (game_over reason g) = GAME_OVER
  /\ game_over_reason (game_over reason g) = reason
  /\ direction (game_over reason g) = direction g
  /\ board_kept g (game_over reason g).
Proof.
  destruct (game_over_shape reason g) as [ps [r ->]].
  destruct (save_high_score_shape (set_game_over_reason reason g))
    as [hs ->].
  unfold board_kept; simpl; repeat split; reflexivity.
Qed.

(** ** One step of the snake *)

Lemma wall_test_within (g : game) (p : Pos) :
  (fst p <? 0) || (fst p >=? WIDTH g) || (snd p <? 0) || (snd p >=? HEIGHT g)
  = negb (within g p).
Proof.
  destruct p as [x y]; unfold within; simpl.
  destruct (Z.ltb_spec x 0), (Z.geb_spec x (WIDTH g)),
    (Z.ltb_spec y 0), (Z.geb_spec y (HEIGHT g)),
    (Z.ltb_spec x (WIDTH g)), (Z.ltb_spec y (HEIGHT g)),
    (Z.geb_spec x 0), (Z.geb_spec y 0); simpl; try reflexivity; lia.
Qed.

(** [update_game] on a game in play whose committed direction is not zero,
    by the three outcomes of the two collision tests. *)
Lemma update_game_playing (g : game) (nh : Pos) :
  state g = PLAYING ->
  committed g <> (0, 0) ->
  new_head_of g = Some nh ->
  update_game g =
    let g1 := set_direction (committed g) g in
    if negb (within g nh) then Some (game_over wall_reason g1)
    else if mem nh (snake g) then Some (game_over self_reason g1)
    else
      let g2 := set_snake (nh :: snake g) g1 in
      let g3 :=
        if pos_eqb nh (food_pos g) then
          let g := set_score (score g + 1) g2 in
          let g := create_particles (food_pos g) COLORS_success 15 g in
          let '(food, g) := spawn_food g in
          set_food_pos food g
        else set_snake (pop_last (snake g2)) g2 in
      Some (create_food_particles (food_pos g3) g3).
Proof.
  intros Hs Hc Hn. unfold update_game. rewrite Hs. simpl.
  apply pos_eqb_neq in Hc. rewrite Hc.
  unfold new_head_of in Hn. destruct (snake g) as [| [hx hy] rest] eqn:Hsn;
    [discriminate |].
  inversion Hn as [Hnh].
  rewrite <- (wall_test_within g
                (hx + fst (committed g), hy + snd (committed g))).
  reflexivity.
Qed.

(** C4.  In play with a non-zero committed direction, a new head with
    [x < 0], [x >= WIDTH], [y < 0] or [y >= HEIGHT] ends the game with the
    reason "Hit the wall!". *)
Theorem wall_collision_game_over (g : game) (nh : Pos) :
  state g = PLAYING ->
  committed g <> (0, 0) ->
  new_head_of g = Some nh ->
  fst nh < 0 \/ fst nh >= WIDTH g \/ snd nh < 0 \/ snd nh >= HEIGHT g ->
  exists g', update_game g = Some g'
             /\ state g' = GAME_OVER
             /\ game_over_reason g' = wall_reason.
Proof.
  intros Hs Hc Hn Hout.
  rewrite (update_game_playing g nh Hs Hc Hn). cbv zeta.
  assert (Hw : within g nh = false).
  { destruct (within g nh) eqn:E; [| reflexivity].
    apply within_spec in E. unfold in_bounds, inside in E. lia. }
  rewrite Hw. simpl. eexists. split; [reflexivity |].
  destruct (game_over_spec wall_reason (set_direction (committed g) g))
    as [H1 [H2 _]]. auto.
Qed.

(** The scenario of the specification: the snake [(0,0); (25,0)] going
    left on the default window. *)
Lemma wall_collision_game_over_witness :
  exists g',
    update_game (playing 1000 700 [(0, 0); (25, 0)] (-25, 0) (0, 0) (50, 50))
    = Some g'
    /\ state g' = GAME_OVER /\ game_over_reason g' = wall_reason.
Proof.
  apply (wall_collision_game_over
           (playing 1000 700 [(0, 0); (25, 0)] (-25, 0) (0, 0) (50, 50))
           (-25, 0)).
  - reflexivity.
  - discriminate.
  - reflexivity.
  - left. simpl. lia.
Defined.

Lemma create_food_particles_shape (pos : Pos) (g : game) :
  exists fps r, create_food_particles pos g
                = set_rand r (set_food_particles fps g).
Proof.
  unfold create_food_particles.
  destruct (negb (particles_enabled (settings g))).
  - exists (food_particles g), (rand g). destruct g; reflexivity.
  - simpl. destruct (negb (Qle_bool _ _)).
    + eexists; eexists. destruct g; reflexivity.
    + exists (food_particles g). eexists. destruct g; reflexivity.
Qed.

Lemma pop_last_length {A : Type} (x : A) (l : list A) :
  List.length (pop_last (x :: l)) = List.length l.
Proof.
  unfold pop_last. revert x. induction l as [| y l IH]; intros x.
  - reflexivity.
  - change (removelast (x :: y :: l)) with (x :: removelast (y :: l)).
    change (S (List.length (removelast (y :: l))) = S (List.length l)).
    f_equal. apply IH.
Qed.

(** A step without collision: the head is prepended; the tail is kept and
    the score raised when the head lands on the food, and the tail is
    popped otherwise. *)
Lemma update_game_move (g : game) (nh : Pos) :
  state g = PLAYING ->
  committed g <> (0, 0) ->
  new_head_of g = Some nh ->
  in_bounds g nh ->
  ~ In nh (snake g) ->
  exists g', update_game g = Some g'
    /\ state g' = PLAYING
    /\ WIDTH g' = WIDTH g /\ HEIGHT g' = HEIGHT g
    /\ direction g' = committed g
    /\ (nh = food_pos g ->
        snake g' = nh :: snake g /\ score g' = score g + 1
        /\ exists g0, food_pos g' = fst (spawn_food g0))
    /\ (nh <> food_pos g ->
        snake g' = pop_last (nh :: snake g) /\ score g' = score g
        /\ food_pos g' = food_pos g).
Proof.
  intros Hs Hc Hn Hin Hfree.
  rewrite (update_game_playing g nh Hs Hc Hn). cbv zeta.
  apply within_spec in Hin. rewrite Hin.
  apply mem_not_In in Hfree. rewrite Hfree. simpl negb. cbv iota.
  destruct (pos_eqb nh (food_pos g)) eqn:Hfood.
  - apply pos_eqb_eq in Hfood.
    match goal with |- context [create_particles ?p ?c ?n ?g0] =>
      destruct (create_particles_shape p c n g0) as [ps [r2 ->]] end.
    match goal with |- context [spawn_food ?g0] =>
      destruct (spawn_food_shape g0) as [r1 Hr1];
      assert (Hsrc : exists g5, fst (spawn_food g0) = fst (spawn_food g5))
        by (exists g0; reflexivity);
      destruct (spawn_food g0) as [food g4] end.
    simpl in Hr1, Hsrc. subst g4.
    match goal with |- context [create_food_particles ?p ?g3] =>
      destruct (create_food_particles_shape p g3) as [fps [r ->]] end.
    eexists. split; [reflexivity |]. simpl.
    repeat split; try assumption; try reflexivity; intros;
      try contradiction; repeat split; try reflexivity; exact Hsrc.
  - apply pos_eqb_neq in Hfood.
    match goal with |- context [create_food_particles ?p ?g3] =>
      destruct (create_food_particles_shape p g3) as [fps [r ->]] end.
    eexists. split; [reflexivity |]. simpl.
    repeat split; try assumption; try reflexivity; intros;
      try contradiction; repeat split; reflexivity.
Qed.

(** C3.  A step that is executed (in play, committed direction not zero,
    new head inside the window and not on the snake) lengthens the snake by
    exactly one and raises the score by one when the new head is the food
    position; otherwise the length of the snake, and the score, stay as
    they were. *)
Theorem step_growth (g : game) (nh : Pos) :
  state g = PLAYING ->
  committed g <> (0, 0) ->
  new_head_of g = Some nh ->
  in_bounds g nh ->
  ~ In nh (snake g) ->
  exists g', update_game g = Some g'
    /\ (nh = food_pos g ->
        List.length (snake g') = S (List.length (snake g))
        /\ score g' = score g + 1)
    /\ (nh <> food_pos g ->
        List.length (snake g') = List.length (snake g)
        /\ score g' = score g).
Proof.
  intros Hs Hc Hn Hin Hfree.
  destruct (update_game_move g nh Hs Hc Hn Hin Hfree)
    as [g' [Hg' [_ [_ [_ [_ [Heat Hmove]]]]]]].
  exists g'. split; [assumption |]. split.
  - intros E. destruct (Heat E) as [-> [-> _]]. split; reflexivity.
  - intros E. destruct (Hmove E) as [-> [-> _]]. split; [| reflexivity].
    apply pop_last_length.
Qed.

(** The scenario of the specification: on a grid of 10 by 10 cells the
    snake [(50,50)] goes right onto the food at [(75,50)]. *)
Lemma step_growth_witness :
  exists g',
    update_game (playing 250 250 [(50, 50)] (25, 0) (0, 0) (75, 50))
    = Some g'
    /\ ((75, 50) = (75, 50) ->
        List.length (snake g') = 2%nat /\ score g' = 0 + 1)
    /\ ((75, 50) <> (75, 50) ->
        List.length (snake g') = 1%nat /\ score g' = 0).
Proof.
  apply (step_growth
           (playing 250 250 [(50, 50)] (25, 0) (0, 0) (75, 50)) (75, 50)).
  - reflexivity.
  - discriminate.
  - reflexivity.
  - unfold in_bounds, inside; simpl; lia.
  - simpl. intros [H | []]. discriminate H.
Defined.

(** ** Collisions *)

(** A step that detects a collision ends the game and commits the buffered
    direction; the rest of the board is as before. *)
Lemma update_game_collision (g : game) (nh : Pos) :
  state g = PLAYING ->
  committed g <> (0, 0) ->
  new_head_of g = Some nh ->
  ~ in_bounds g nh \/ In nh (snake g) ->
  exists g', update_game g = Some g'
    /\ state g' = GAME_OVER
    /\ game_over_reason g'
       = (if within g nh then self_reason else wall_reason)
    /\ direction g' = committed g
    /\ board_kept g g'.
Proof.
  intros Hs Hc Hn Hcol.
  rewrite (update_game_playing g nh Hs Hc Hn). cbv zeta.
  destruct (within g nh) eqn:Hw; simpl negb; cbv iota.
  - assert (Hm : mem nh (snake g) = true).
    { apply mem_In. apply within_spec in Hw. tauto. }
    rewrite Hm. eexists. split; [reflexivity |].
    destruct (game_over_spec self_reason (set_direction (committed g) g))
      as [H1 [H2 [H3 H4]]]. auto.
  - eexists. split; [reflexivity |].
    destruct (game_over_spec wall_reason (set_direction (committed g) g))
      as [H1 [H2 [H3 H4]]]. auto.
Qed.

(** C2, counterexample.  On a window of 600 by 400 the curled snake below
    lies beyond the right edge (the window was shrunk while the game was
    paused).  Turning up moves the head onto its fourth segment at
    [(600, 350)], and the step reports "Hit the wall!", because the wall
    test comes first. *)
Lemma self_collision_claim_fails : ~ self_collision_claim.
Proof.
  intros claim.
  destruct (claim curled_outside (600, 350)) as [g' [Hg' [_ Hr]]].
  - reflexivity.
  - discriminate.
  - reflexivity.
  - simpl. auto 6.
  - destruct (update_game_collision curled_outside (600, 350))
      as [g'' [Hg'' [_ [Hr'' _]]]].
    + reflexivity.
    + discriminate.
    + reflexivity.
    + right. simpl. auto 6.
    + rewrite Hg' in Hg''. inversion Hg''. subst g''.
      rewrite Hr in Hr''. discriminate Hr''.
Qed.

(** C2, amended.  In play with a non-zero committed direction, a step whose
    new head is on the snake as it is before the step (any segment, the
    second one and the tail included) ends the game and leaves the snake as
    it was; the reason is "Ate yourself!" when the new head is inside the
    window, and "Hit the wall!" when it is outside. *)
Theorem self_collision_game_over (g : game) (nh : Pos) :
  state g = PLAYING ->
  committed g <> (0, 0) ->
  new_head_of g = Some nh ->
  In nh (snake g) ->
  exists g', update_game g = Some g'
    /\ state g' = GAME_OVER
    /\ snake g' = snake g
    /\ (in_bounds g nh -> game_over_reason g' = self_reason)
    /\ (~ in_bounds g nh -> game_over_reason g' = wall_reason).
Proof.
  intros Hs Hc Hn Hin.
  destruct (update_game_collision g nh Hs Hc Hn (or_intror Hin))
    as [g' [Hg' [Hst [Hr [_ Hk]]]]].
  exists g'. split; [assumption |]. split; [assumption |].
  split; [apply Hk |].
  split; intros Hb.
  - apply within_spec in Hb. rewrite Hb in Hr. assumption.
  - destruct (within g nh) eqn:Hw; [| assumption].
    apply within_spec in Hw. contradiction.
Qed.

(** The head runs into the tail cell, which a step without collision would
    have vacated. *)
Lemma self_collision_game_over_witness :
  exists g',
    update_game square_snake = Some g'
    /\ state g' = GAME_OVER
    /\ snake g' = snake square_snake
    /\ (in_bounds square_snake (500, 375) ->
        game_over_reason g' = self_reason)
    /\ (~ in_bounds square_snake (500, 375) ->
        game_over_reason g' = wall_reason).
Proof.
  apply (self_collision_game_over square_snake (500, 375)).
  - reflexivity.
  - discriminate.
  - reflexivity.
  - simpl. auto 6.
Defined.

(** C10, counterexample.  The snake at [(0, 0)] goes up with a left turn
    buffered; the step commits the turn, hits the wall, and leaves
    [direction] changed from [(0, -25)] to [(-25, 0)]. *)
Lemma step_atomic_claim_fails : ~ step_atomic_claim.
Proof.
  intros claim.
  destruct (update_game_collision turning_into_wall (-25, 0))
    as [g' [Hg' [Hst [_ [Hd _]]]]].
  - reflexivity.
  - discriminate.
  - reflexivity.
  - left. unfold in_bounds, inside; simpl; lia.
  - destruct (claim turning_into_wall g' eq_refl Hg' Hst) as [_ Hkeep].
    rewrite Hd in Hkeep. discriminate Hkeep.
Qed.

(** C10, amended.  A step that detects a wall collision or a self-collision
    leaves the snake, the score and the food position as they were, and
    with them the window, the grid, the buffered direction, the ambient
    particles, the timers and the settings; what may change is the state,
    the recorded reason, the high score, the explosion particles and the
    direction, which takes the buffered turn. *)
Theorem step_failure_keeps_board (g : game) (nh : Pos) :
  state g = PLAYING ->
  committed g <> (0, 0) ->
  new_head_of g = Some nh ->
  ~ in_bounds g nh \/ In nh (snake g) ->
  exists g', update_game g = Some g'
    /\ state g' = GAME_OVER
    /\ snake g' = snake g /\ score g' = score g
    /\ food_pos g' = food_pos g
    /\ board_kept g g'
    /\ direction g' = committed g.
Proof.
  intros Hs Hc Hn Hcol.
  destruct (update_game_collision g nh Hs Hc Hn Hcol)
    as [g' [Hg' [Hst [_ [Hd Hk]]]]].
  exists g'. repeat (split; [first [assumption | apply Hk] |]).
  assumption.
Qed.

Lemma step_failure_keeps_board_witness :
  exists g',
    update_game turning_into_wall = Some g'
    /\ state g' = GAME_OVER
    /\ snake g' = [(0, 0)] /\ score g' = 0
    /\ food_pos g' = (50, 50)
    /\ board_kept turning_into_wall g'
    /\ direction g' = (-25, 0).
Proof.
  apply (step_failure_keeps_board turning_into_wall (-25, 0)).
  - reflexivity.
  - discriminate.
  - reflexivity.
  - left. unfold in_bounds, inside; simpl; lia.
Defined.

(** ** Food placement *)

Lemma randint_range (a b : Z) (r : Rng) :
  a <= b -> a <= fst (randint a b r) <= b.
Proof.
  intros Hab. unfold randint; simpl.
  pose proof (Z.mod_pos_bound (hd 0 (ints r)) (b - a + 1)). lia.
Qed.

Lemma py_range_In (z stop : Z) :
  In z (py_range 0 stop CELL_SIZE)
  <-> 0 <= z < stop /\ z mod CELL_SIZE = 0.
Proof.
  unfold py_range, CELL_SIZE. rewrite in_map_iff. split.
  - intros [i [Hz Hi]]. apply in_seq in Hi. subst z.
    split; [| rewrite Z.add_0_l; apply Z.mod_mul; lia].
    Z.div_mod_to_equations. lia.
  - intros [Hz Hm]. exists (Z.to_nat (z / 25)). split.
    + Z.div_mod_to_equations. lia.
    + apply in_seq. Z.div_mod_to_equations. lia.
Qed.

Lemma py_range_sorted (start stop step : Z) :
  0 < step -> StronglySorted Z.lt (py_range start stop step).
Proof.
  intros Hstep. unfold py_range.
  generalize (Z.to_nat ((stop - start + step - 1) / step)) as n.
  generalize 0%nat as a. intros a n; revert a.
  induction n as [| n IH]; intros a; simpl.
  - constructor.
  - constructor; [apply IH |].
    apply Forall_forall. intros z Hz. apply in_map_iff in Hz.
    destruct Hz as [i [<- Hi]]. apply in_seq in Hi. nia.
Qed.

(** A trial that succeeds returns a free cell whose indices are in the
    range of the two draws. *)
Lemma spawn_trials_some (n : nat) :
  forall g p g',
    spawn_trials n g = (Some p, g') ->
    ~ In p (snake g)
    /\ exists rx ry,
         p = (rx * CELL_SIZE, ry * CELL_SIZE)
         /\ 0 <= rx <= Z.max 0 (GRID_WIDTH g - 1)
         /\ 0 <= ry <= Z.max 0 (GRID_HEIGHT g - 1).
Proof.
  induction n as [| n IH]; intros g p g' H; [discriminate H |].
  cbn [spawn_trials] in H.
  pose proof (randint_range 0 (Z.max 0 (GRID_WIDTH g - 1)) (rand g)) as Hx.
  destruct (randint 0 (Z.max 0 (GRID_WIDTH g - 1)) (rand g)) as [rx r1].
  pose proof (randint_range 0 (Z.max 0 (GRID_HEIGHT g - 1)) r1) as Hy.
  destruct (randint 0 (Z.max 0 (GRID_HEIGHT g - 1)) r1) as [ry r2].
  simpl fst in Hx, Hy.
  change (snake (set_rand r2 g)) with (snake g) in H.
  destruct (mem (rx * CELL_SIZE, ry * CELL_SIZE) (snake g)) eqn:Hm;
    simpl negb in H; cbv iota in H.
  - apply (IH (set_rand r2 g) p g' H).
  - inversion H; subst. split.
    + apply mem_not_In; assumption.
    + exists rx, ry. repeat split; lia.
Qed.

(** When every cell the draws can reach is occupied, no trial succeeds. *)
Lemma spawn_trials_none (n : nat) :
  forall g,
    (forall rx ry,
        0 <= rx <= Z.max 0 (GRID_WIDTH g - 1) ->
        0 <= ry <= Z.max 0 (GRID_HEIGHT g - 1) ->
        In (rx * CELL_SIZE, ry * CELL_SIZE) (snake g)) ->
    fst (spawn_trials n g) = None.
Proof.
  induction n as [| n IH]; intros g Hocc; [reflexivity |].
  cbn [spawn_trials].
  pose proof (randint_range 0 (Z.max 0 (GRID_WIDTH g - 1)) (rand g)) as Hx.
  destruct (randint 0 (Z.max 0 (GRID_WIDTH g - 1)) (rand g)) as [rx r1].
  pose proof (randint_range 0 (Z.max 0 (GRID_HEIGHT g - 1)) r1) as Hy.
  destruct (randint 0 (Z.max 0 (GRID_HEIGHT g - 1)) r1) as [ry r2].
  simpl fst in Hx, Hy.
  change (snake (set_rand r2 g)) with (snake g).
  assert (Hm : mem (rx * CELL_SIZE, ry * CELL_SIZE) (snake g) = true).
  { apply mem_In. apply Hocc; lia. }
  rewrite Hm. simpl negb. cbv iota. apply (IH (set_rand r2 g) Hocc).
Qed.

(** A cell index drawn for a positive extent lies inside it. *)
Lemma drawn_cell_inside (extent rx : Z) :
  0 < extent ->
  0 <= rx <= Z.max 0 (extent / CELL_SIZE - 1) ->
  0 <= rx * CELL_SIZE < extent /\ (rx * CELL_SIZE) mod CELL_SIZE = 0.
Proof.
  unfold CELL_SIZE. intros He Hr.
  split; [| apply Z.mod_mul; lia].
  pose proof (Z.mul_div_le extent 25). lia.
Qed.

Lemma scan_column_none (x : Z) (ys : list Z) (occ : list Pos) :
  scan_column x ys occ = None <-> forall y, In y ys -> In (x, y) occ.
Proof.
  induction ys as [| y ys IH]; simpl.
  - split; [intros _ y [] | reflexivity].
  - destruct (mem (x, y) occ) eqn:Hm; simpl.
    + rewrite IH. apply mem_In in Hm. split.
      * intros H y' [<- | Hy']; auto.
      * intros H y' Hy'. apply H; auto.
    + apply mem_not_In in Hm. split; [discriminate |].
      intros H. exfalso. apply Hm. apply H; auto.
Qed.

Lemma scan_column_some (x : Z) (ys : list Z) (occ : list Pos) (p : Pos) :
  StronglySorted Z.lt ys ->
  scan_column x ys occ = Some p ->
  fst p = x /\ In (snd p) ys /\ ~ In p occ
  /\ forall y, In y ys -> ~ In (x, y) occ -> snd p <= y.
Proof.
  induction ys as [| y ys IH]; intros Hs H; simpl in H; [discriminate |].
  apply StronglySorted_inv in Hs. destruct Hs as [Hs Hall].
  rewrite Forall_forall in Hall.
  destruct (mem (x, y) occ) eqn:Hm; simpl in H.
  - destruct (IH Hs H) as [H1 [H2 [H3 H4]]].
    repeat split; [assumption | right; assumption | assumption |].
    intros y' [<- | Hy'] Hfree.
    + apply mem_In in Hm. contradiction.
    + apply H4; assumption.
  - inversion H; subst p; simpl. apply mem_not_In in Hm.
    repeat split; [left; reflexivity | assumption |].
    intros y' [<- | Hy'] _; [lia |]. specialize (Hall y' Hy'). lia.
Qed.

Lemma scan_grid_none (xs ys : list Z) (occ : list Pos) :
  scan_grid xs ys occ = None
  <-> forall x y, In x xs -> In y ys -> In (x, y) occ.
Proof.
  induction xs as [| x xs IH]; simpl.
  - split; [intros _ x y [] | reflexivity].
  - destruct (scan_column x ys occ) as [p |] eqn:Hc.
    + split; [discriminate |]. intros H.
      assert (Hn : scan_column x ys occ = None)
        by (apply scan_column_none; intros y Hy; apply H; auto).
      congruence.
    + rewrite IH. rewrite scan_column_none in Hc. split.
      * intros H x' y [<- | Hx'] Hy; auto.
      * intros H x' y Hx' Hy. apply H; auto.
Qed.

Lemma scan_grid_some (xs ys : list Z) (occ : list Pos) (p : Pos) :
  StronglySorted Z.lt xs ->
  StronglySorted Z.lt ys ->
  scan_grid xs ys occ = Some p ->
  In (fst p) xs /\ In (snd p) ys /\ ~ In p occ
  /\ forall x y, In x xs -> In y ys -> ~ In (x, y) occ ->
                 column_major_le p (x, y).
Proof.
  intros Hxs Hys. induction xs as [| x xs IH]; intros H; simpl in H;
    [discriminate |].
  apply StronglySorted_inv in Hxs. destruct Hxs as [Hxs Hall].
  rewrite Forall_forall in Hall.
  destruct (scan_column x ys occ) as [p' |] eqn:Hc.
  - inversion H; subst p'.
    destruct (scan_column_some x ys occ p Hys Hc) as [H1 [H2 [H3 H4]]].
    repeat split; [left; auto | assumption | assumption |].
    intros x' y' [<- | Hx'] Hy' Hfree; unfold column_major_le; simpl.
    + right. split; [assumption | apply H4; assumption].
    + left. specialize (Hall x' Hx'). lia.
  - destruct (IH Hxs H) as [H1 [H2 [H3 H4]]].
    repeat split; [right; assumption | assumption | assumption |].
    intros x' y' [<- | Hx'] Hy' Hfree.
    + rewrite scan_column_none in Hc. exfalso. apply Hfree. auto.
    + apply H4; assumption.
Qed.

(** The two ways [spawn_food] produces its result. *)
Lemma spawn_food_cases (g : game) :
  (exists p g',
      spawn_trials max_attempts (update_grid_dimensions g) = (Some p, g')
      /\ fst (spawn_food g) = p)
  \/ (fst (spawn_trials max_attempts (update_grid_dimensions g)) = None
      /\ fst (spawn_food g)
         = match scan_grid (py_range 0 (WIDTH g) CELL_SIZE)
                   (py_range 0 (HEIGHT g) CELL_SIZE) (snake g) with
           | Some p => p
           | None => (CELL_SIZE, CELL_SIZE)
           end).
Proof.
  unfold spawn_food.
  destruct (spawn_trials_shape max_attempts (update_grid_dimensions g))
    as [r Hr].
  destruct (spawn_trials max_attempts (update_grid_dimensions g))
    as [[p |] g'] eqn:E.
  - left. exists p, g'. split; reflexivity.
  - right. split; [reflexivity |]. simpl in Hr. subst g'.
    unfold fallback_scan.
    change (WIDTH (set_rand r (update_grid_dimensions g))) with (WIDTH g).
    change (HEIGHT (set_rand r (update_grid_dimensions g))) with (HEIGHT g).
    change (snake (set_rand r (update_grid_dimensions g))) with (snake g).
    destruct (scan_grid _ _ _); reflexivity.
Qed.

Lemma grid_cell_in_ranges (g : game) (c : Pos) :
  grid_cell g c
  <-> In (fst c) (py_range 0 (WIDTH g) CELL_SIZE)
      /\ In (snd c) (py_range 0 (HEIGHT g) CELL_SIZE).
Proof.
  unfold grid_cell, in_bounds, inside. rewrite !py_range_In. tauto.
Qed.

(** A cell found by the random trials is a free grid cell of a window with
    positive extents. *)
Lemma trial_cell_free (g : game) (p : Pos) (g' : game) :
  0 < WIDTH g -> 0 < HEIGHT g ->
  spawn_trials max_attempts (update_grid_dimensions g) = (Some p, g') ->
  grid_cell g p /\ ~ In p (snake g).
Proof.
  intros Hw Hh E.
  destruct (spawn_trials_some _ _ _ _ E) as [Hfree [rx [ry [-> [Hx Hy]]]]].
  split; [| exact Hfree].
  destruct (drawn_cell_inside (WIDTH g) rx Hw Hx) as [Hx1 Hx2].
  destruct (drawn_cell_inside (HEIGHT g) ry Hh Hy) as [Hy1 Hy2].
  unfold grid_cell, in_bounds, inside; simpl. tauto.
Qed.

Lemma grid_cell_positive (g : game) (c : Pos) :
  grid_cell g c -> 0 < WIDTH g /\ 0 < HEIGHT g.
Proof. unfold grid_cell, in_bounds, inside. lia. Qed.

(** C6.  When some grid cell (coordinates multiples of the cell size inside
    the window) is not on the snake, [spawn_food] returns a grid cell that
    is not on the snake; when every grid cell of a window with positive
    extents is on the snake, it returns the fallback
    [(CELL_SIZE, CELL_SIZE)]. *)
Theorem spawn_food_free_cell (g : game) :
  ((exists c, grid_cell g c /\ ~ In c (snake g)) ->
   grid_cell g (fst (spawn_food g)) /\ ~ In (fst (spawn_food g)) (snake g))
  /\ (0 < WIDTH g -> 0 < HEIGHT g ->
      (forall c, grid_cell g c -> In c (snake g)) ->
      fst (spawn_food g) = (CELL_SIZE, CELL_SIZE)).
Proof.
  pose proof (py_range_sorted 0 (WIDTH g) CELL_SIZE eq_refl) as Sx.
  pose proof (py_range_sorted 0 (HEIGHT g) CELL_SIZE eq_refl) as Sy.
  split.
  - intros [c [Hc Hfree]].
    destruct (grid_cell_positive g c Hc) as [Hw Hh].
    destruct (spawn_food_cases g) as [[p [g' [E ->]]] | [_ ->]].
    + apply (trial_cell_free g p g' Hw Hh E).
    + destruct (scan_grid _ _ _) as [p |] eqn:Hscan.
      * destruct (scan_grid_some _ _ _ _ Sx Sy Hscan) as [H1 [H2 [H3 _]]].
        split; [apply grid_cell_in_ranges; auto | assumption].
      * exfalso. apply Hfree. rewrite scan_grid_none in Hscan.
        apply grid_cell_in_ranges in Hc. destruct c as [cx cy].
        apply Hscan; apply Hc.
  - intros Hw Hh Hfull.
    destruct (spawn_food_cases g) as [[p [g' [E ->]]] | [_ ->]].
    + destruct (trial_cell_free g p g' Hw Hh E) as [Hc Hfree].
      exfalso. apply Hfree, Hfull, Hc.
    + destruct (scan_grid _ _ _) as [p |] eqn:Hscan; [| reflexivity].
      destruct (scan_grid_some _ _ _ _ Sx Sy Hscan) as [H1 [H2 [H3 _]]].
      exfalso. apply H3, Hfull. apply grid_cell_in_ranges; auto.
Qed.

Lemma all_cells_In (width height x y : Z) :
  In (x, y) (all_cells width height)
  <-> In x (py_range 0 width CELL_SIZE)
      /\ In y (py_range 0 height CELL_SIZE).
Proof.
  unfold all_cells. rewrite in_flat_map. split.
  - intros [x' [Hx Hy]]. apply in_map_iff in Hy.
    destruct Hy as [y' [E Hy]]. inversion E; subst. auto.
  - intros [Hx Hy]. exists x. split; [assumption |].
    apply in_map_iff. exists y. auto.
Qed.

(** With the head in the corner the food lands on a free grid cell; on the
    full board the fallback cell is returned, and it is on the snake. *)
Lemma spawn_food_free_cell_witness :
  (grid_cell in_corner (fst (spawn_food in_corner))
   /\ ~ In (fst (spawn_food in_corner)) (snake in_corner))
  /\ fst (spawn_food full_board) = (CELL_SIZE, CELL_SIZE)
  /\ In (CELL_SIZE, CELL_SIZE) (snake full_board).
Proof.
  split; [| split].
  - apply (proj1 (spawn_food_free_cell in_corner)).
    exists (50, 0). split.
    + unfold grid_cell, in_bounds, inside; simpl. repeat split; lia.
    + simpl. intros [H | [H | []]]; discriminate H.
  - apply (proj2 (spawn_food_free_cell full_board)).
    + reflexivity.
    + reflexivity.
    + intros [x y] Hc. apply grid_cell_in_ranges in Hc.
      apply all_cells_In. exact Hc.
  - apply all_cells_In. rewrite !py_range_In. unfold CELL_SIZE.
    repeat split; lia.
Defined.

(** C7, counterexample.  On the smallest window with the snake on
    [(0, 0)] and [(25, 0)] and a random tape that always draws cell
    [(0, 0)], the scan returns [(0, 25)], the next cell down the first
    column, and not [(50, 0)], the first free cell along the first row. *)
Lemma fallback_row_major_claim_fails : ~ fallback_row_major_claim.
Proof.
  intros claim.
  destruct (claim in_corner (50, 0)) as [_ [_ Hle]].
  - vm_compute. reflexivity.
  - unfold grid_cell, in_bounds, inside; simpl. repeat split; lia.
  - simpl. intros [H | [H | []]]; discriminate H.
  - assert (E : fst (spawn_food in_corner) = (0, 25))
      by (vm_compute; reflexivity).
    rewrite E in Hle. unfold row_major_le in Hle; simpl in Hle. lia.
Qed.

(** C7, amended.  When every random trial collides and some grid cell is
    free, [spawn_food] returns the first free grid cell in column-major
    order: all cells of one column of constant x, in increasing y, before
    the next column. *)
Theorem fallback_column_major (g : game) (q : Pos) :
  fst (spawn_trials max_attempts (update_grid_dimensions g)) = None ->
  grid_cell g q -> ~ In q (snake g) ->
  grid_cell g (fst (spawn_food g))
  /\ ~ In (fst (spawn_food g)) (snake g)
  /\ column_major_le (fst (spawn_food g)) q.
Proof.
  intros Hnone Hq Hfree.
  pose proof (py_range_sorted 0 (WIDTH g) CELL_SIZE eq_refl) as Sx.
  pose proof (py_range_sorted 0 (HEIGHT g) CELL_SIZE eq_refl) as Sy.
  destruct (spawn_food_cases g) as [[p [g' [E _]]] | [_ ->]].
  - rewrite E in Hnone. discriminate Hnone.
  - apply grid_cell_in_ranges in Hq. destruct q as [qx qy].
    destruct Hq as [Hqx Hqy]. simpl in Hqx, Hqy.
    destruct (scan_grid _ _ _) as [p |] eqn:Hscan.
    + destruct (scan_grid_some _ _ _ _ Sx Sy Hscan) as [H1 [H2 [H3 H4]]].
      split; [apply grid_cell_in_ranges; auto |].
      split; [assumption |]. apply H4; assumption.
    + exfalso. apply Hfree. rewrite scan_grid_none in Hscan.
      apply Hscan; assumption.
Qed.

Lemma fallback_column_major_witness :
  grid_cell in_corner (fst (spawn_food in_corner))
  /\ ~ In (fst (spawn_food in_corner)) (snake in_corner)
  /\ column_major_le (fst (spawn_food in_corner)) (50, 0).
Proof.
  apply (fallback_column_major in_corner (50, 0)).
  - vm_compute. reflexivity.
  - unfold grid_cell, in_bounds, inside; simpl. repeat split; lia.
  - simpl. intros [H | [H | []]]; discriminate H.
Defined.

(** ** Resizing *)

Lemma within_insideb (g : game) (p : Pos) :
  within g p = insideb (WIDTH g) (HEIGHT g) p.
Proof.
  destruct p as [x y]; unfold within, insideb; simpl.
  rewrite !Z.geb_leb.
  destruct (x <? WIDTH g), (y <? HEIGHT g), (0 <=? x), (0 <=? y);
    reflexivity.
Qed.

Lemma insideb_spec (width height : Z) (p : Pos) :
  insideb width height p = true <-> inside width height p.
Proof.
  unfold insideb, inside.
  rewrite !andb_true_iff, !Z.leb_le, !Z.ltb_lt. lia.
Qed.

Lemma head_in_filter (f : Pos -> bool) (head : Pos) (rest : list Pos) :
  mem head (filter f (head :: rest)) = f head.
Proof.
  destruct (f head) eqn:Hf.
  - apply mem_In. apply filter_In. split; [left; reflexivity | assumption].
  - apply mem_not_In. intros H. apply filter_In in H. destruct H as [_ H].
    congruence.
Qed.

Lemma handle_resize_not_playing (w h : Z) (g : game) :
  state g <> PLAYING ->
  handle_resize w h g
  = update_grid_dimensions
      (set_HEIGHT (snapped h MIN_HEIGHT)
         (set_WIDTH (snapped w MIN_WIDTH) g)).
Proof.
  intros Hs. unfold handle_resize, snapped.
  change (state (update_grid_dimensions _)) with (state g).
  destruct (GameState_eqb (state g) PLAYING) eqn:E; [| reflexivity].
  apply GameState_eqb_eq in E. contradiction.
Qed.

(** [handle_resize] on a game in play.  The game [g1] is the resized game
    with the food as the food test leaves it; the snake is then filtered,
    or the game ended. *)
Lemma handle_resize_playing (w h : Z) (g : game) :
  state g = PLAYING ->
  let W := snapped w MIN_WIDTH in
  let H := snapped h MIN_HEIGHT in
  let g0 := update_grid_dimensions (set_HEIGHT H (set_WIDTH W g)) in
  exists g1,
    food_pos g1
    = (if (fst (food_pos g) >=? W) || (snd (food_pos g) >=? H)
       then fst (spawn_food g0) else food_pos g)
    /\ snake g1 = snake g /\ state g1 = PLAYING
    /\ WIDTH g1 = W /\ HEIGHT g1 = H
    /\ GRID_WIDTH g1 = W / CELL_SIZE /\ GRID_HEIGHT g1 = H / CELL_SIZE
    /\ handle_resize w h g
       = match snake g with
         | [] => game_over resize_reason g1
         | head :: _ =>
             if insideb W H head
             then set_snake (filter (insideb W H) (snake g)) g1
             else game_over resize_reason g1
         end.
Proof.
  intros Hs W H g0.
  assert (Hcheck : forall g1,
    snake g1 = snake g -> WIDTH g1 = W -> HEIGHT g1 = H ->
    (let valid_snake := filter (within g1) (snake g1) in
     if is_empty valid_snake
        || match snake g1 with
           | [] => false
           | head :: _ => negb (mem head valid_snake)
           end
     then game_over resize_reason g1
     else
       let g2 := set_snake valid_snake g1 in
       if is_empty (snake g2) then game_over resize_reason g2 else g2)
    = match snake g with
      | [] => game_over resize_reason g1
      | head :: _ =>
          if insideb W H head
          then set_snake (filter (insideb W H) (snake g)) g1
          else game_over resize_reason g1
      end).
  { intros g1 Hsn Hw Hh. cbv zeta.
    rewrite (filter_ext (within g1) (insideb W H))
      by (intros p; rewrite within_insideb, Hw, Hh; reflexivity).
    rewrite Hsn. destruct (snake g) as [| head rest]; [reflexivity |].
    rewrite head_in_filter.
    destruct (insideb W H head) eqn:Hhead.
    - simpl filter. rewrite Hhead. reflexivity.
    - rewrite orb_true_r. reflexivity. }
  unfold handle_resize. fold (snapped w MIN_WIDTH) (snapped h MIN_HEIGHT).
  fold W H. fold g0.
  replace (GameState_eqb (state g0) PLAYING) with true
    by (symmetry; apply GameState_eqb_eq; exact Hs).
  unfold check_bounds_after_resize.
  change (food_pos g0) with (food_pos g).
  change (WIDTH g0) with W. change (HEIGHT g0) with H.
  destruct ((fst (food_pos g) >=? W) || (snd (food_pos g) >=? H)).
  - destruct (spawn_food_shape g0) as [r Hr].
    destruct (spawn_food g0) as [food g'] eqn:E. simpl in Hr. subst g'.
    eexists. split; [| split; [| split; [| split; [| split;
      [| split; [| split; [| apply Hcheck]]]]]]];
      first [reflexivity | exact Hs].
  - exists g0.
    split; [| split; [| split; [| split; [| split;
      [| split; [| split; [| apply Hcheck]]]]]]]; try reflexivity.
    exact Hs.
Qed.

(** C8.  A resize of a game in play, with the food at non-negative
    coordinates as [spawn_food] places it: the window takes the snapped
    extents; when the segments inside the new window, in their order, are
    none or do not include the head position, the game ends with the reason
    "Screen resized - snake out of bounds!" and the snake is left as it
    was; otherwise the snake becomes those segments; a food position
    outside the new window is replaced by the result of [spawn_food] on
    the resized game, and one inside it is kept. *)
Theorem resize_filters_snake (w h : Z) (g : game) :
  state g = PLAYING ->
  0 <= fst (food_pos g) ->
  0 <= snd (food_pos g) ->
  let W := snapped w MIN_WIDTH in
  let H := snapped h MIN_HEIGHT in
  let kept := filter (insideb W H) (snake g) in
  let g' := handle_resize w h g in
  WIDTH g' = W /\ HEIGHT g' = H
  /\ (kept = []
      \/ (exists head rest, snake g = head :: rest /\ ~ In head kept) ->
      state g' = GAME_OVER /\ game_over_reason g' = resize_reason
      /\ snake g' = snake g)
  /\ (kept <> [] ->
      (forall head rest, snake g = head :: rest -> In head kept) ->
      state g' = PLAYING /\ snake g' = kept)
  /\ (~ inside W H (food_pos g) ->
      food_pos g'
      = fst (spawn_food
               (update_grid_dimensions (set_HEIGHT H (set_WIDTH W g)))))
  /\ (inside W H (food_pos g) -> food_pos g' = food_pos g).
Proof.
  intros Hs Hfx Hfy W H kept g'.
  destruct (handle_resize_playing w h g Hs)
    as [g1 [Hfood [Hsn [Hst [Hw [Hh [_ [_ Hres]]]]]]]].
  fold W H in Hfood, Hw, Hh, Hres. fold g' in Hres.
  destruct (game_over_spec resize_reason g1)
    as [Ho1 [Ho2 [_ [Ko1 [Ko2 [_ [_ [Ko5 [Ko6 _]]]]]]]]].
  assert (Hover : g' = game_over resize_reason g1 ->
            WIDTH g' = W /\ HEIGHT g' = H /\ state g' = GAME_OVER
            /\ game_over_reason g' = resize_reason
            /\ snake g' = snake g /\ food_pos g' = food_pos g1).
  { intros ->. repeat split; congruence. }
  assert (Hkeep : g' = set_snake kept g1 ->
            WIDTH g' = W /\ HEIGHT g' = H /\ state g' = PLAYING
            /\ snake g' = kept /\ food_pos g' = food_pos g1).
  { intros ->. simpl. auto. }
  assert (Hf : WIDTH g' = W /\ HEIGHT g' = H /\ food_pos g' = food_pos g1
               /\ (state g' = GAME_OVER /\ game_over_reason g' = resize_reason
                   /\ snake g' = snake g
                   /\ (kept = [] \/ exists head rest,
                          snake g = head :: rest /\ ~ In head kept)
                   \/ state g' = PLAYING /\ snake g' = kept /\ kept <> []
                      /\ forall head rest,
                           snake g = head :: rest -> In head kept)).
  { destruct (snake g) as [| head rest] eqn:Esn.
    - destruct (Hover Hres) as [? [? [? [? [? ?]]]]].
      repeat split; try assumption. left. repeat split; try assumption.
      left. reflexivity.
    - destruct (insideb W H head) eqn:Ehead.
      + destruct (Hkeep Hres) as [? [? [? [? ?]]]].
        repeat split; try assumption. right.
        assert (Hin : In head kept).
        { subst kept. apply filter_In. split; [left; reflexivity |].
          assumption. }
        repeat split; try assumption.
        * intros E. rewrite E in Hin. destruct Hin.
        * intros head' rest' E'. inversion E'; subst. assumption.
      + destruct (Hover Hres) as [? [? [? [? [? ?]]]]].
        repeat split; try assumption. left. repeat split; try assumption.
        right. exists head, rest. split; [reflexivity |].
        subst kept. intros Hin. apply filter_In in Hin. destruct Hin.
        congruence. }
  destruct Hf as [HW [HH [Hfp Hcases]]].
  split; [exact HW |]. split; [exact HH |]. split; [| split; [| split]].
  - intros Hbad. destruct Hcases as [[? [? [? _]]] | [_ [_ [Hne Hall]]]];
      [auto |].
    exfalso. destruct Hbad as [E | [head [rest [E Hnot]]]].
    + contradiction.
    + apply Hnot. apply (Hall head rest E).
  - intros Hne Hall.
    destruct Hcases as [[_ [_ [_ Hbad]]] | [? [? _]]]; [| auto].
    exfalso. destruct Hbad as [E | [head [rest [E Hnot]]]].
    + contradiction.
    + apply Hnot. apply (Hall head rest E).
  - intros Hout. rewrite Hfp, Hfood.
    destruct ((fst (food_pos g) >=? W) || (snd (food_pos g) >=? H)) eqn:E;
      [reflexivity |].
    exfalso. apply Hout. apply orb_false_iff in E.
    rewrite !Z.geb_leb, !Z.leb_gt in E. unfold inside. lia.
  - intros Hin. rewrite Hfp, Hfood.
    destruct ((fst (food_pos g) >=? W) || (snd (food_pos g) >=? H)) eqn:E;
      [| reflexivity].
    exfalso. apply orb_true_iff in E.
    rewrite !Z.geb_leb, !Z.leb_le in E. unfold inside in Hin. lia.
Qed.

(** The scenario of the specification: the window shrinks to 600 by 400
    while the head is at [(800, 500)]. *)
Lemma resize_filters_snake_witness :
  state (handle_resize 600 400 far_right) = GAME_OVER
  /\ game_over_reason (handle_resize 600 400 far_right) = resize_reason
  /\ snake (handle_resize 600 400 far_right) = snake far_right.
Proof.
  apply (resize_filters_snake 600 400 far_right).
  - reflexivity.
  - simpl; lia.
  - simpl; lia.
  - left. reflexivity.
Defined.

Lemma filter_all {A : Type} (f : A -> bool) (l : list A) :
  (forall x, In x l -> f x = true) -> filter f l = l.
Proof.
  induction l as [| x l IH]; intros H; simpl; [reflexivity |].
  rewrite (H x (or_introl eq_refl)). f_equal. apply IH.
  intros y Hy. apply H. right; assumption.
Qed.

Lemma snapped_valid (extent lowest : Z) :
  lowest <= extent -> extent mod CELL_SIZE = 0 ->
  snapped extent lowest = extent.
Proof.
  unfold snapped, CELL_SIZE. intros Hl Hm.
  rewrite Z.max_l by assumption.
  Z.div_mod_to_equations. lia.
Qed.

(** A resize to a window that already contains the snake, with the food
    short of its right and bottom edges, leaves both alone. *)
Lemma resize_in_bounds (w h : Z) (g : game) :
  state g = PLAYING ->
  Forall (inside (snapped w MIN_WIDTH) (snapped h MIN_HEIGHT)) (snake g) ->
  fst (food_pos g) < snapped w MIN_WIDTH ->
  snd (food_pos g) < snapped h MIN_HEIGHT ->
  snake (handle_resize w h g) = snake g
  /\ food_pos (handle_resize w h g) = food_pos g
  /\ WIDTH (handle_resize w h g) = snapped w MIN_WIDTH
  /\ HEIGHT (handle_resize w h g) = snapped h MIN_HEIGHT
  /\ GRID_WIDTH (handle_resize w h g) = snapped w MIN_WIDTH / CELL_SIZE
  /\ GRID_HEIGHT (handle_resize w h g) = snapped h MIN_HEIGHT / CELL_SIZE
  /\ (state (handle_resize w h g) = PLAYING
      \/ state (handle_resize w h g) = GAME_OVER)
  /\ (snake g <> [] -> state (handle_resize w h g) = PLAYING).
Proof.
  intros Hs Hall Hfx Hfy.
  destruct (handle_resize_playing w h g Hs)
    as [g1 [Hf [Hsn [Hst [Hw [Hh [Hgw [Hgh ->]]]]]]]].
  cbv zeta in Hf.
  assert (Htest : (fst (food_pos g) >=? snapped w MIN_WIDTH)
                  || (snd (food_pos g) >=? snapped h MIN_HEIGHT) = false).
  { apply orb_false_iff. rewrite !Z.geb_leb, !Z.leb_gt. lia. }
  rewrite Htest in Hf.
  rewrite Forall_forall in Hall.
  rewrite (filter_all (insideb _ _) (snake g))
    by (intros p Hp; apply insideb_spec; auto).
  destruct (game_over_spec resize_reason g1)
    as [Ho1 [_ [_ [Ko1 [Ko2 [Ko3 [Ko4 [Ko5 [Ko6 _]]]]]]]]].
  destruct (snake g) as [| head rest] eqn:Esn.
  - repeat split; try congruence; try (right; assumption).
  - assert (Hhead : insideb (snapped w MIN_WIDTH) (snapped h MIN_HEIGHT)
                      head = true)
      by (apply insideb_spec, Hall; left; reflexivity).
    rewrite Hhead. simpl.
    repeat split; try assumption; try (left; assumption).
    intros _; assumption.
Qed.

(** C9.  For a game in play and dimensions that are at least the minimum
    and multiples of the cell size, with the snake and the food inside
    them: resizing once gives the grid of those dimensions and leaves the
    snake and the food as they were, and resizing a second time gives the
    same window, the same grid, the same snake and the same food. *)
Theorem resize_idempotent (w h : Z) (g : game) :
  state g = PLAYING ->
  MIN_WIDTH <= w -> MIN_HEIGHT <= h ->
  w mod CELL_SIZE = 0 -> h mod CELL_SIZE = 0 ->
  Forall (inside w h) (snake g) ->
  inside w h (food_pos g) ->
  let once := handle_resize w h g in
  let twice := handle_resize w h once in
  (GRID_WIDTH once = w / CELL_SIZE /\ GRID_HEIGHT once = h / CELL_SIZE
   /\ snake once = snake g /\ food_pos once = food_pos g)
  /\ (GRID_WIDTH twice = GRID_WIDTH once
      /\ GRID_HEIGHT twice = GRID_HEIGHT once
      /\ WIDTH twice = WIDTH once /\ HEIGHT twice = HEIGHT once
      /\ snake twice = snake g /\ food_pos twice = food_pos g).
Proof.
  intros Hs Hw Hh Hwm Hhm Hall Hfood once twice.
  pose proof (snapped_valid w MIN_WIDTH Hw Hwm) as EW.
  pose proof (snapped_valid h MIN_HEIGHT Hh Hhm) as EH.
  assert (Hfx : fst (food_pos g) < w /\ snd (food_pos g) < h)
    by (unfold inside in Hfood; lia).
  destruct (resize_in_bounds w h g Hs)
    as [A1 [A2 [A3 [A4 [A5 [A6 [A7 _]]]]]]];
    [rewrite EW, EH; assumption | rewrite EW; apply Hfx
    | rewrite EH; apply Hfx |].
  fold once in A1, A2, A3, A4, A5, A6, A7.
  rewrite EW in A3, A5. rewrite EH in A4, A6.
  split; [auto |].
  destruct A7 as [Hp | Ho].
  - destruct (resize_in_bounds w h once Hp)
      as [B1 [B2 [B3 [B4 [B5 [B6 _]]]]]];
      [rewrite EW, EH, A1; assumption
      | rewrite EW, A2; apply Hfx | rewrite EH, A2; apply Hfx |].
    fold twice in B1, B2, B3, B4, B5, B6.
    rewrite EW in B3, B5. rewrite EH in B4, B6.
    repeat split; congruence.
  - assert (Hnp : state once <> PLAYING) by congruence.
    pose proof (handle_resize_not_playing w h once Hnp) as E.
    fold twice in E. rewrite EW, EH in E. rewrite E. simpl.
    repeat split; congruence.
Qed.

Lemma resize_idempotent_witness :
  let once := handle_resize 600 400 going_up in
  let twice := handle_resize 600 400 once in
  (GRID_WIDTH once = 600 / CELL_SIZE /\ GRID_HEIGHT once = 400 / CELL_SIZE
   /\ snake once = [(500, 350)] /\ food_pos once = (0, 0))
  /\ (GRID_WIDTH twice = GRID_WIDTH once
      /\ GRID_HEIGHT twice = GRID_HEIGHT once
      /\ WIDTH twice = WIDTH once /\ HEIGHT twice = HEIGHT once
      /\ snake twice = [(500, 350)] /\ food_pos twice = (0, 0)).
Proof.
  apply (resize_idempotent 600 400 going_up).
  - reflexivity.
  - unfold MIN_WIDTH; lia.
  - unfold MIN_HEIGHT; lia.
  - reflexivity.
  - reflexivity.
  - repeat constructor; simpl; lia.
  - unfold inside; simpl; lia.
Defined.

(** ** The snake invariant *)

Lemma pop_last_In {A : Type} (x : A) (l : list A) :
  In x (pop_last l) -> In x l.
Proof.
  unfold pop_last. induction l as [| y l IH]; [intros [] |].
  destruct l as [| z l]; [intros [] |].
  change (removelast (y :: z :: l)) with (y :: removelast (z :: l)).
  intros [<- | H]; [left; reflexivity | right; apply IH; assumption].
Qed.

Lemma pop_last_NoDup {A : Type} (l : list A) :
  NoDup l -> NoDup (pop_last l).
Proof.
  unfold pop_last. induction l as [| y l IH]; intros H; [constructor |].
  destruct l as [| z l]; [constructor |].
  change (removelast (y :: z :: l)) with (y :: removelast (z :: l)).
  inversion H as [| y' l' Hnot Hnd]; subst.
  constructor; [| apply IH; assumption].
  intros Hin. apply Hnot. apply (pop_last_In y (z :: l)). exact Hin.
Qed.

Lemma update_game_idle (g : game) :
  state g = PLAYING ->
  committed g = (0, 0) ->
  update_game g = Some (set_direction (committed g) g).
Proof.
  intros Hs Hc. unfold update_game. rewrite Hs. simpl.
  rewrite Hc. reflexivity.
Qed.

Lemma reset_game_shape (g : game) :
  exists food r,
    (exists g0, food = fst (spawn_food g0))
    /\ reset_game g
    = set_game_over_animation_time 0
        (set_food_particles []
           (set_particles []
              (set_game_over_reason EmptyString
                 (set_score 0
                    (set_food_pos food
                       (set_rand r
                          (update_grid_dimensions
                             (set_next_direction (0, 0)
                                (set_direction (0, 0)
                                   (set_snake
                                      [(WIDTH g / CELL_SIZE / 2 * CELL_SIZE,
                                        HEIGHT g / CELL_SIZE / 2 * CELL_SIZE)]
                                      (update_grid_dimensions g))))))))))).
Proof.
  unfold reset_game.
  match goal with |- context [spawn_food ?g0] =>
    destruct (spawn_food_shape g0) as [r Hr];
    assert (Hsrc : exists g5, fst (spawn_food g0) = fst (spawn_food g5))
      by (exists g0; reflexivity);
    destruct (spawn_food g0) as [food g'] end.
  simpl in Hr, Hsrc. subst g'. exists food, r. split; [exact Hsrc |].
  reflexivity.
Qed.

(** The centre cell of a window with positive extents is inside it. *)
Lemma centre_inside (extent : Z) :
  0 < extent -> 0 <= extent / CELL_SIZE / 2 * CELL_SIZE < extent.
Proof. unfold CELL_SIZE. intros H. Z.div_mod_to_equations. lia. Qed.

Lemma reset_game_inv (g : game) :
  0 < WIDTH g -> 0 < HEIGHT g ->
  state (reset_game g) = state g /\ snake_inv (reset_game g).
Proof.
  intros Hw Hh. destruct (reset_game_shape g) as [food [r [_ ->]]].
  split; [reflexivity |]. unfold snake_inv, in_bounds, inside; simpl.
  split; [discriminate |]. split.
  - constructor; [intros [] | constructor].
  - constructor; [| constructor]. simpl.
    split; apply centre_inside; assumption.
Qed.

Lemma snake_inv_positive (g : game) :
  snake_inv g -> 0 < WIDTH g /\ 0 < HEIGHT g.
Proof.
  intros [Hne [_ Hall]]. destruct (snake g) as [| head rest];
    [contradiction |].
  inversion Hall as [| ? ? Hhead _]; subst.
  unfold in_bounds, inside in Hhead. lia.
Qed.

(** The invariant depends on the window and the snake only. *)
Lemma snake_inv_same (g g' : game) :
  WIDTH g' = WIDTH g -> HEIGHT g' = HEIGHT g -> snake g' = snake g ->
  snake_inv g -> snake_inv g'.
Proof.
  unfold snake_inv, in_bounds. intros -> -> ->. tauto.
Qed.

(** C5.  For a game in play that satisfies the snake invariant (snake not
    empty, no position twice, every segment inside the window): a step
    returns a game that is in play and satisfies the invariant, or is over;
    every event of play (a turn, the restart key, the pause key) gives a
    game that satisfies the invariant; a resize gives a game that is in
    play and satisfies the invariant, or is over; and a reset gives a game
    in play that satisfies the invariant. *)
Theorem snake_invariant_preserved (g : game) :
  state g = PLAYING ->
  snake_inv g ->
  (exists g', update_game g = Some g'
     /\ (state g' = PLAYING /\ snake_inv g' \/ state g' = GAME_OVER))
  /\ (forall event,
        snake_inv (handle_playing_events event g)
        /\ (state (handle_playing_events event g) = PLAYING
            \/ state (handle_playing_events event g) = PAUSED))
  /\ (forall w h,
        state (handle_resize w h g) = PLAYING
        /\ snake_inv (handle_resize w h g)
        \/ state (handle_resize w h g) = GAME_OVER)
  /\ (state (reset_game g) = PLAYING /\ snake_inv (reset_game g)).
Proof.
  intros Hs Hinv.
  destruct (snake_inv_positive g Hinv) as [Hw Hh].
  destruct (reset_game_inv g Hw Hh) as [Rs Rinv]. rewrite Hs in Rs.
  split; [| split; [| split]].
  - (* step *)
    destruct (pos_eqb (committed g) (0, 0)) eqn:Hc.
    + apply pos_eqb_eq in Hc. rewrite (update_game_idle g Hs Hc).
      eexists. split; [reflexivity |]. left. split; [exact Hs |].
      exact Hinv.
    + apply pos_eqb_neq in Hc.
      destruct Hinv as [Hne [Hnd Hall]].
      destruct (new_head_of g) as [nh |] eqn:Hn;
        [| unfold new_head_of in Hn; destruct (snake g) as [| [? ?] ?];
           [contradiction | discriminate]].
      destruct (within g nh) eqn:Hin; [destruct (mem nh (snake g)) eqn:Hm |].
      * apply mem_In in Hm.
        destruct (update_game_collision g nh Hs Hc Hn (or_intror Hm))
          as [g' [Hg' [Hst _]]].
        exists g'. auto.
      * apply within_spec in Hin. apply mem_not_In in Hm.
        destruct (update_game_move g nh Hs Hc Hn Hin Hm)
          as [g' [Hg' [Hst [HW [HH [_ [Heat Hmove]]]]]]].
        exists g'. split; [assumption |]. left. split; [assumption |].
        assert (Hlong : NoDup (nh :: snake g)
                        /\ Forall (in_bounds g') (nh :: snake g)).
        { split; [constructor; assumption |].
          unfold in_bounds. rewrite HW, HH. constructor; assumption. }
        destruct Hlong as [Hnd' Hall'].
        destruct (pos_eqb nh (food_pos g)) eqn:Hfood.
        -- apply pos_eqb_eq in Hfood. destruct (Heat Hfood) as [Esn _].
           unfold snake_inv. rewrite Esn.
           split; [discriminate |]. split; assumption.
        -- apply pos_eqb_neq in Hfood. destruct (Hmove Hfood) as [Esn _].
           unfold snake_inv. rewrite Esn. split; [| split].
           ++ intros E. apply (f_equal (@List.length Pos)) in E.
              rewrite pop_last_length in E.
              destruct (snake g); [contradiction | discriminate E].
           ++ apply pop_last_NoDup; assumption.
           ++ rewrite Forall_forall in Hall' |- *.
              intros p Hp. apply Hall'. apply pop_last_In. exact Hp.
      * assert (Hout : ~ in_bounds g nh).
        { intros Hb. apply within_spec in Hb. congruence. }
        destruct (update_game_collision g nh Hs Hc Hn (or_introl Hout))
          as [g' [Hg' [Hst _]]].
        exists g'. auto.
  - (* events of play *)
    intros event.
    assert (Hsame : forall g', WIDTH g' = WIDTH g -> HEIGHT g' = HEIGHT g ->
              snake g' = snake g ->
              state g' = PLAYING \/ state g' = PAUSED ->
              snake_inv g' /\ (state g' = PLAYING \/ state g' = PAUSED)).
    { intros g' E1 E2 E3 E4. split; [| exact E4].
      apply (snake_inv_same g g'); assumption. }
    unfold handle_playing_events.
    destruct event as [| w h | key |];
      [apply Hsame; auto | apply Hsame; auto | | apply Hsame; auto].
    destruct key; simpl;
      try (split; [exact Rinv | left; exact Rs]);
      repeat match goal with
             | |- context [if ?c then _ else _] => destruct c
             end;
      apply Hsame; simpl; auto.
  - (* resize *)
    intros w h.
    destruct (handle_resize_playing w h g Hs)
      as [g1 [_ [Hsn [Hst [HW [HH [_ [_ ->]]]]]]]].
    destruct (game_over_spec resize_reason g1) as [Hover _].
    destruct Hinv as [Hne [Hnd Hall]].
    destruct (snake g) as [| head rest] eqn:Esn; [contradiction |].
    destruct (insideb _ _ head) eqn:Ehead; [| right; exact Hover].
    left. split; [exact Hst |].
    unfold snake_inv, in_bounds; simpl. rewrite HW, HH, Ehead.
    split; [discriminate |]. split.
    + apply (NoDup_filter
               (insideb (snapped w MIN_WIDTH) (snapped h MIN_HEIGHT)))
        in Hnd.
      simpl in Hnd. rewrite Ehead in Hnd. exact Hnd.
    + constructor; [apply insideb_spec; exact Ehead |].
      apply Forall_forall. intros p Hp. apply filter_In in Hp.
      apply insideb_spec. apply Hp.
  - (* reset *)
    split; assumption.
Qed.

Lemma snake_invariant_preserved_witness :
  (exists g', update_game square_snake = Some g'
     /\ (state g' = PLAYING /\ snake_inv g' \/ state g' = GAME_OVER))
  /\ (forall event,
        snake_inv (handle_playing_events event square_snake)
        /\ (state (handle_playing_events event square_snake) = PLAYING
            \/ state (handle_playing_events event square_snake) = PAUSED))
  /\ (forall w h,
        state (handle_resize w h square_snake) = PLAYING
        /\ snake_inv (handle_resize w h square_snake)
        \/ state (handle_resize w h square_snake) = GAME_OVER)
  /\ (state (reset_game square_snake) = PLAYING
      /\ snake_inv (reset_game square_snake)).
Proof.
  apply (snake_invariant_preserved square_snake).
  - reflexivity.
  - unfold snake_inv, square_snake, playing, in_bounds, inside; simpl.
    split; [discriminate |]. split.
    + repeat constructor; simpl; intuition discriminate.
    + repeat constructor; simpl; lia.
Defined.

(** ** Supporting facts about reachable games *)

(** [spawn_food] never returns a negative coordinate, so the food of a
    running game is never left of or above the window. *)
Lemma spawn_food_nonneg (g : game) :
  0 <= fst (fst (spawn_food g)) /\ 0 <= snd (fst (spawn_food g)).
Proof.
  pose proof (py_range_sorted 0 (WIDTH g) CELL_SIZE eq_refl) as Sx.
  pose proof (py_range_sorted 0 (HEIGHT g) CELL_SIZE eq_refl) as Sy.
  destruct (spawn_food_cases g) as [[p [g' [E ->]]] | [_ ->]].
  - destruct (spawn_trials_some _ _ _ _ E) as [_ [rx [ry [-> [Hx Hy]]]]].
    unfold CELL_SIZE; simpl. lia.
  - destruct (scan_grid _ _ _) as [p |] eqn:Hscan.
    + destruct (scan_grid_some _ _ _ _ Sx Sy Hscan) as [H1 [H2 _]].
      apply py_range_In in H1, H2. lia.
    + unfold CELL_SIZE; simpl. lia.
Qed.

(** In a window of more than one cell each way the food is placed inside
    the window. *)
Lemma spawn_food_inside (g : game) :
  CELL_SIZE < WIDTH g -> CELL_SIZE < HEIGHT g ->
  in_bounds g (fst (spawn_food g)).
Proof.
  intros Hw Hh.
  pose proof (py_range_sorted 0 (WIDTH g) CELL_SIZE eq_refl) as Sx.
  pose proof (py_range_sorted 0 (HEIGHT g) CELL_SIZE eq_refl) as Sy.
  unfold CELL_SIZE in Hw, Hh.
  destruct (spawn_food_cases g) as [[p [g' [E ->]]] | [_ ->]].
  - apply (trial_cell_free g p g'); [lia | lia | exact E].
  - destruct (scan_grid _ _ _) as [p |] eqn:Hscan.
    + destruct (scan_grid_some _ _ _ _ Sx Sy Hscan) as [H1 [H2 _]].
      apply py_range_In in H1, H2. unfold in_bounds, inside. lia.
    + unfold in_bounds, inside, CELL_SIZE; simpl. lia.
Qed.

Lemma snapped_at_least (extent lowest : Z) :
  lowest mod CELL_SIZE = 0 -> lowest <= snapped extent lowest.
Proof.
  unfold snapped, CELL_SIZE. intros Hm.
  Z.div_mod_to_equations. lia.
Qed.

(** The window never gets smaller than the minimum. *)
Lemma handle_resize_window (w h : Z) (g : game) :
  MIN_WIDTH <= WIDTH (handle_resize w h g)
  /\ MIN_HEIGHT <= HEIGHT (handle_resize w h g).
Proof.
  pose proof (snapped_at_least w MIN_WIDTH eq_refl) as Hw.
  pose proof (snapped_at_least h MIN_HEIGHT eq_refl) as Hh.
  destruct (GameState_eqb (state g) PLAYING) eqn:E.
  - apply GameState_eqb_eq in E.
    destruct (handle_resize_playing w h g E)
      as [g1 [_ [_ [_ [HW [HH [_ [_ ->]]]]]]]].
    destruct (game_over_spec resize_reason g1)
      as [_ [_ [_ [Ko1 [Ko2 _]]]]].
    destruct (snake g) as [| head rest];
      [| destruct (insideb _ _ head)]; simpl; rewrite ?Ko1, ?Ko2, ?HW, ?HH;
      auto.
  - rewrite handle_resize_not_playing
      by (intros H; rewrite H in E; discriminate E).
    simpl. auto.
Qed.

(** X18.  Resizing twice with the same request is resizing once, whatever
    the game and the request: the second call changes neither the window,
    the grid, the snake, the food nor the state. *)
Lemma handle_resize_twice (w h : Z) (g : game) :
  let once := handle_resize w h g in
  let twice := handle_resize w h once in
  WIDTH twice = WIDTH once /\ HEIGHT twice = HEIGHT once
  /\ GRID_WIDTH twice = GRID_WIDTH once
  /\ GRID_HEIGHT twice = GRID_HEIGHT once
  /\ snake twice = snake once /\ food_pos twice = food_pos once
  /\ state twice = state once.
Proof.
  intros once twice.
  pose proof (snapped_at_least w MIN_WIDTH eq_refl) as Lw.
  pose proof (snapped_at_least h MIN_HEIGHT eq_refl) as Lh.
  assert (Hstop : state once <> PLAYING ->
            WIDTH once = snapped w MIN_WIDTH ->
            HEIGHT once = snapped h MIN_HEIGHT ->
            GRID_WIDTH once = snapped w MIN_WIDTH / CELL_SIZE ->
            GRID_HEIGHT once = snapped h MIN_HEIGHT / CELL_SIZE ->
            WIDTH twice = WIDTH once /\ HEIGHT twice = HEIGHT once
            /\ GRID_WIDTH twice = GRID_WIDTH once
            /\ GRID_HEIGHT twice = GRID_HEIGHT once
            /\ snake twice = snake once /\ food_pos twice = food_pos once
            /\ state twice = state once).
  { intros Hnp E1 E2 E3 E4. subst twice.
    rewrite (handle_resize_not_playing w h once Hnp). simpl.
    repeat split; congruence. }
  destruct (GameState_eqb (state g) PLAYING) eqn:E.
  - apply GameState_eqb_eq in E.
    destruct (handle_resize_playing w h g E)
      as [g1 [Hf [Hsn [Hst [HW [HH [HGW [HGH Hres]]]]]]]].
    cbv zeta in Hf. fold once in Hres.
    destruct (game_over_spec resize_reason g1)
      as [Ho [_ [_ [Ko1 [Ko2 [Ko3 [Ko4 _]]]]]]].
    assert (Hover : once = game_over resize_reason g1 ->
              WIDTH twice = WIDTH once /\ HEIGHT twice = HEIGHT once
              /\ GRID_WIDTH twice = GRID_WIDTH once
              /\ GRID_HEIGHT twice = GRID_HEIGHT once
              /\ snake twice = snake once /\ food_pos twice = food_pos once
              /\ state twice = state once).
    { intros Eo. apply Hstop; rewrite Eo; congruence. }
    destruct (snake g) as [| head rest] eqn:Esn; [exact (Hover Hres) |].
    destruct (insideb _ _ head) eqn:Ehead; [| exact (Hover Hres)].
    assert (Hp : state once = PLAYING) by (rewrite Hres; exact Hst).
    assert (Hfood : fst (food_pos once) < snapped w MIN_WIDTH
                    /\ snd (food_pos once) < snapped h MIN_HEIGHT).
    { rewrite Hres. simpl. rewrite Hf.
      destruct ((fst (food_pos g) >=? snapped w MIN_WIDTH)
                || (snd (food_pos g) >=? snapped h MIN_HEIGHT)) eqn:Et.
      - match goal with |- context [spawn_food ?g0] =>
          pose proof (spawn_food_inside g0) as Hin end.
        simpl in Hin. unfold in_bounds, inside in Hin. simpl in Hin.
        unfold MIN_WIDTH, MIN_HEIGHT, CELL_SIZE in *. lia.
      - apply orb_false_iff in Et.
        rewrite !Z.geb_leb, !Z.leb_gt in Et. exact Et. }
    destruct (resize_in_bounds w h once Hp)
      as [B1 [B2 [B3 [B4 [B5 [B6 [_ B8]]]]]]].
    + rewrite Hres. simpl. rewrite Ehead.
      constructor; [apply insideb_spec; exact Ehead |].
      apply Forall_forall. intros p Hp'. apply filter_In in Hp'.
      apply insideb_spec. apply Hp'.
    + apply Hfood.
    + apply Hfood.
    + fold twice in B1, B2, B3, B4, B5, B6, B8.
      assert (Hne : snake once <> [])
        by (rewrite Hres; simpl; rewrite Ehead; discriminate).
      rewrite (B8 Hne), Hp, B1, B2, B3, B4, B5, B6, Hres. simpl.
      repeat split; congruence.
  - assert (Hnp : state g <> PLAYING)
      by (intros H; rewrite H in E; discriminate E).
    assert (Eo : once = update_grid_dimensions
                          (set_HEIGHT (snapped h MIN_HEIGHT)
                             (set_WIDTH (snapped w MIN_WIDTH) g)))
      by (apply handle_resize_not_playing; exact Hnp).
    apply Hstop; rewrite Eo; try reflexivity. exact Hnp.
Qed.

(** What a step may do to the window and to the food. *)
Lemma update_game_outcomes (g g' : game) :
  update_game g = Some g' ->
  WIDTH g' = WIDTH g /\ HEIGHT g' = HEIGHT g
  /\ (food_pos g' = food_pos g
      \/ exists g0, food_pos g' = fst (spawn_food g0)).
Proof.
  intros Hstep.
  destruct (GameState_eqb (state g) PLAYING) eqn:E.
  - apply GameState_eqb_eq in E.
    destruct (pos_eqb (committed g) (0, 0)) eqn:Hc.
    + apply pos_eqb_eq in Hc. rewrite (update_game_idle g E Hc) in Hstep.
      inversion Hstep; subst. simpl. auto.
    + apply pos_eqb_neq in Hc.
      assert (Hcol : forall nh, new_head_of g = Some nh ->
                ~ in_bounds g nh \/ In nh (snake g) ->
                WIDTH g' = WIDTH g /\ HEIGHT g' = HEIGHT g
                /\ (food_pos g' = food_pos g
                    \/ exists g0, food_pos g' = fst (spawn_food g0))).
      { intros nh Hn Hbad.
        destruct (update_game_collision g nh E Hc Hn Hbad)
          as [g2 [Hg2 [_ [_ [_ Hk]]]]].
        rewrite Hg2 in Hstep; inversion Hstep; subst.
        destruct Hk as [K1 [K2 [_ [_ [_ [K6 _]]]]]]. auto. }
      destruct (new_head_of g) as [nh |] eqn:Hn.
      * destruct (within g nh) eqn:Hin;
          [destruct (mem nh (snake g)) eqn:Hm |].
        -- apply mem_In in Hm. apply (Hcol nh eq_refl). auto.
        -- apply within_spec in Hin. apply mem_not_In in Hm.
           destruct (update_game_move g nh E Hc Hn Hin Hm)
             as [g2 [Hg2 [_ [HW [HH [_ [Heat Hmove]]]]]]].
           rewrite Hg2 in Hstep; inversion Hstep; subst.
           split; [exact HW |]. split; [exact HH |].
           destruct (pos_eqb nh (food_pos g)) eqn:Hfood.
           ++ apply pos_eqb_eq in Hfood. right. apply (Heat Hfood).
           ++ apply pos_eqb_neq in Hfood. left. apply (Hmove Hfood).
        -- apply (Hcol nh eq_refl). left.
           intros Hb. apply within_spec in Hb. congruence.
      * exfalso. unfold update_game in Hstep. rewrite E in Hstep.
        simpl in Hstep. rewrite (proj2 (pos_eqb_neq _ _) Hc) in Hstep.
        unfold new_head_of in Hn.
        destruct (snake g) as [| [hx hy] rest]; discriminate.
  - unfold update_game in Hstep. rewrite E in Hstep. simpl in Hstep.
    inversion Hstep; subst. auto.
Qed.

(** A property of games that every operation of the frame loop preserves
    holds along every play. *)
Section PlayInvariant.

Variable P : game -> Prop.
Hypothesis P_reset : forall g, P g -> P (reset_game g).
Hypothesis P_state : forall v g, P g -> P (set_state v g).
Hypothesis P_turn : forall v g, P g -> P (set_next_direction v g).
Hypothesis P_resize : forall w h g, P g -> P (handle_resize w h g).
Hypothesis P_step : forall g g', P g -> update_game g = Some g' -> P g'.
Hypothesis P_particles : forall g, P g -> P (update_particles g).

Lemma pump_preserves (events : list Event) :
  forall running g, P g -> P (snd (pump events running g)).
Proof.
  induction events as [| event rest IH]; intros running g Hg;
    [exact Hg |].
  destruct event as [| w h | key |].
  - exact Hg.
  - simpl. apply IH. apply P_resize. exact Hg.
  - cbn [pump]. destruct (state g).
    + unfold handle_menu_events.
      destruct (Key_eqb key K_SPACE || Key_eqb key K_RETURN);
        [apply IH, P_reset, P_state; exact Hg |].
      destruct (Key_eqb key K_s); [apply IH, P_state; exact Hg |].
      destruct (Key_eqb key K_ESCAPE || Key_eqb key K_q);
        apply IH; exact Hg.
    + apply IH. unfold handle_playing_events.
      destruct (Key_eqb key K_ESCAPE); [apply P_state; exact Hg |].
      destruct (Key_eqb key K_r); [apply P_reset; exact Hg |].
      repeat match goal with
             | |- context [if ?c then _ else _] => destruct c
             end; first [apply P_turn; exact Hg | exact Hg].
    + apply IH. unfold handle_paused_events.
      destruct (Key_eqb key K_SPACE || Key_eqb key K_ESCAPE);
        [apply P_state; exact Hg |].
      destruct (Key_eqb key K_m); [apply P_state; exact Hg |].
      destruct (Key_eqb key K_r); [| exact Hg].
      apply P_state, P_reset. exact Hg.
    + unfold handle_game_over_events.
      destruct (Key_eqb key K_r || Key_eqb key K_SPACE);
        [apply IH, P_state, P_reset; exact Hg |].
      destruct (Key_eqb key K_m); [apply IH, P_state; exact Hg |].
      destruct (Key_eqb key K_ESCAPE || Key_eqb key K_q);
        apply IH; exact Hg.
    + apply IH. exact Hg.
  - cbn [pump]. destruct (state g); simpl; apply IH; exact Hg.
Qed.

Lemma frames_preserve (inputs : list (list Event)) :
  forall g g', P g -> frames inputs g = Some g' -> P g'.
Proof.
  induction inputs as [| events rest IH]; intros g g' Hg Hrun;
    simpl in Hrun.
  - inversion Hrun; subst. exact Hg.
  - unfold frame in Hrun.
    pose proof (pump_preserves events true g Hg) as Hpump.
    destruct (pump events true g) as [running g1]. simpl in Hpump.
    destruct (update_game g1) as [g2 |] eqn:Hstep; [| discriminate].
    pose proof (P_particles g2 (P_step g1 g2 Hpump Hstep)) as H3.
    destruct running.
    + apply (IH _ _ H3 Hrun).
    + inversion Hrun; subst. exact H3.
Qed.

End PlayInvariant.

Lemma food_nonneg_reset (g : game) : food_nonneg (reset_game g).
Proof.
  destruct (reset_game_shape g) as [food [r [[g0 ->] ->]]].
  unfold food_nonneg; simpl. apply spawn_food_nonneg.
Qed.

Lemma food_nonneg_resize (w h : Z) (g : game) :
  food_nonneg g -> food_nonneg (handle_resize w h g).
Proof.
  intros Hg. destruct (GameState_eqb (state g) PLAYING) eqn:E.
  - apply GameState_eqb_eq in E.
    destruct (handle_resize_playing w h g E)
      as [g1 [Hf [_ [_ [_ [_ [_ [_ ->]]]]]]]].
    cbv zeta in Hf.
    assert (H1 : food_nonneg g1).
    { unfold food_nonneg. rewrite Hf.
      destruct (_ || _); [apply spawn_food_nonneg | exact Hg]. }
    destruct (game_over_spec resize_reason g1)
      as [_ [_ [_ [_ [_ [_ [_ [_ [Ko6 _]]]]]]]]].
    assert (H2 : food_nonneg (game_over resize_reason g1))
      by (unfold food_nonneg; rewrite Ko6; exact H1).
    destruct (snake g) as [| head rest];
      [| destruct (insideb _ _ head)]; assumption.
  - rewrite handle_resize_not_playing
      by (intros H; rewrite H in E; discriminate E).
    exact Hg.
Qed.

(** The game built by [__init__]: the default window, and the food where
    [spawn_food] put it. *)
Lemma init_spec (s : Settings) (hs : Z) (r : Rng) :
  WIDTH (init s hs r) = DEFAULT_WIDTH
  /\ HEIGHT (init s hs r) = DEFAULT_HEIGHT
  /\ state (init s hs r) = MENU
  /\ food_nonneg (init s hs r).
Proof.
  unfold init. cbv zeta.
  match goal with |- context [reset_game ?g0] =>
    destruct (reset_game_shape g0) as [food [r' [[g1 ->] ->]]] end.
  unfold food_nonneg. simpl. repeat split; apply spawn_food_nonneg.
Qed.

(** Every game that a play reaches from [__init__] has its food at
    non-negative coordinates. *)
Lemma food_nonneg_frames (inputs : list (list Event)) (g g' : game) :
  food_nonneg g -> frames inputs g = Some g' -> food_nonneg g'.
Proof.
  apply (frames_preserve food_nonneg).
  - intros g0 _. apply food_nonneg_reset.
  - intros v g0 H. exact H.
  - intros v g0 H. exact H.
  - intros w h g0. apply food_nonneg_resize.
  - intros g0 g1 H Hstep. unfold food_nonneg.
    destruct (update_game_outcomes g0 g1 Hstep) as [_ [_ [-> | [g2 ->]]]];
      [exact H | apply spawn_food_nonneg].
  - intros g0 H. exact H.
Qed.

(** Every game that a play reaches from a window of at least the minimum
    size, as [__init__] makes it, has such a window. *)
Lemma window_frames (inputs : list (list Event)) (g g' : game) :
  window_ok g -> frames inputs g = Some g' -> window_ok g'.
Proof.
  apply (frames_preserve window_ok).
  - intros g0 H. destruct (reset_game_shape g0) as [food [r [_ ->]]].
    exact H.
  - intros v g0 H. exact H.
  - intros v g0 H. exact H.
  - intros w h g0 _. apply handle_resize_window.
  - intros g0 g1 H Hstep. unfold window_ok.
    destruct (update_game_outcomes g0 g1 Hstep) as [-> [-> _]]. exact H.
  - intros g0 H. exact H.
Qed.

(** The game [curled_outside] arises in play: after the inputs of
    [curl_inputs], resuming and turning up gives a game in play with its
    window, snake and directions, and the step then reports the wall. *)
Example curled_outside_reachable :
  option_map
    (fun paused =>
       let g := snd (pump [KEYDOWN K_SPACE; KEYDOWN K_UP] true paused) in
       (state g, WIDTH g, HEIGHT g, snake g, direction g, next_direction g,
        option_map game_over_reason (update_game g)))
    (frames curl_inputs (init default_settings 0 curl_tape))
  = Some (PLAYING, WIDTH curled_outside, HEIGHT curled_outside,
          snake curled_outside, direction curled_outside,
          next_direction curled_outside, Some wall_reason).
Proof. vm_compute. reflexivity. Qed.

(** * Further properties of the code *)

(** ** The outcomes of a step *)

Lemma game_over_high_score (reason : string) (g : game) :
  high_score (game_over reason g) = Z.max (high_score g) (score g)
  /\ settings (game_over reason g) = settings g.
Proof.
  destruct (game_over_shape reason g) as [ps [r ->]]. simpl.
  unfold save_high_score; simpl.
  destruct (Z.gtb_spec (score g) (high_score g)); simpl; split;
    try reflexivity; lia.
Qed.

(** A step without collision, with everything it leaves alone. *)
Lemma update_game_move_full (g : game) (nh : Pos) :
  state g = PLAYING ->
  committed g <> (0, 0) ->
  new_head_of g = Some nh ->
  in_bounds g nh ->
  ~ In nh (snake g) ->
  exists g', update_game g = Some g'
    /\ state g' = PLAYING
    /\ WIDTH g' = WIDTH g /\ HEIGHT g' = HEIGHT g
    /\ direction g' = committed g
    /\ next_direction g' = next_direction g
    /\ high_score g' = high_score g /\ settings g' = settings g
    /\ (nh = food_pos g ->
        snake g' = nh :: snake g /\ score g' = score g + 1
        /\ GRID_WIDTH g' = WIDTH g / CELL_SIZE
        /\ GRID_HEIGHT g' = HEIGHT g / CELL_SIZE
        /\ exists g0, food_pos g' = fst (spawn_food g0)
                      /\ snake g0 = nh :: snake g
                      /\ WIDTH g0 = WIDTH g /\ HEIGHT g0 = HEIGHT g)
    /\ (nh <> food_pos g ->
        snake g' = pop_last (nh :: snake g) /\ score g' = score g
        /\ food_pos g' = food_pos g
        /\ GRID_WIDTH g' = GRID_WIDTH g /\ GRID_HEIGHT g' = GRID_HEIGHT g).
Proof.
  intros Hs Hc Hn Hin Hfree.
  rewrite (update_game_playing g nh Hs Hc Hn). cbv zeta.
  apply within_spec in Hin. rewrite Hin.
  apply mem_not_In in Hfree. rewrite Hfree. simpl negb. cbv iota.
  destruct (pos_eqb nh (food_pos g)) eqn:Hfood.
  - apply pos_eqb_eq in Hfood.
    match goal with |- context [create_particles ?p ?c ?n ?g0] =>
      destruct (create_particles_shape p c n g0) as [ps [r2 ->]] end.
    match goal with |- context [spawn_food ?g0] =>
      destruct (spawn_food_shape g0) as [r1 Hr1];
      assert (Hsrc : exists g5, fst (spawn_food g0) = fst (spawn_food g5)
                       /\ snake g5 = nh :: snake g
                       /\ WIDTH g5 = WIDTH g /\ HEIGHT g5 = HEIGHT g)
        by (exists g0; repeat split; reflexivity);
      destruct (spawn_food g0) as [food g4] end.
    simpl in Hr1, Hsrc. subst g4.
    match goal with |- context [create_food_particles ?p ?g3] =>
      destruct (create_food_particles_shape p g3) as [fps [r ->]] end.
    eexists. split; [reflexivity |]. simpl.
    split; [exact Hs |].
    do 6 (split; [reflexivity |]).
    split; [| intros Hne; contradiction].
    intros _. do 4 (split; [reflexivity |]). exact Hsrc.
  - apply pos_eqb_neq in Hfood.
    match goal with |- context [create_food_particles ?p ?g3] =>
      destruct (create_food_particles_shape p g3) as [fps [r ->]] end.
    eexists. split; [reflexivity |]. simpl.
    repeat split; try assumption; try reflexivity; intros;
      try contradiction; repeat split; reflexivity.
Qed.

(** A step that detects a collision, with the high score it records. *)
Lemma update_game_collision_full (g : game) (nh : Pos) :
  state g = PLAYING ->
  committed g <> (0, 0) ->
  new_head_of g = Some nh ->
  ~ in_bounds g nh \/ In nh (snake g) ->
  exists g', update_game g = Some g'
    /\ state g' = GAME_OVER
    /\ game_over_reason g'
       = (if within g nh then self_reason else wall_reason)
    /\ direction g' = committed g
    /\ board_kept g g'
    /\ high_score g' = Z.max (high_score g) (score g).
Proof.
  intros Hs Hc Hn Hcol.
  rewrite (update_game_playing g nh Hs Hc Hn). cbv zeta.
  assert (Hboth : forall reason,
            state (game_over reason (set_direction (committed g) g))
            = GAME_OVER
            /\ game_over_reason
                 (game_over reason (set_direction (committed g) g)) = reason
            /\ direction (game_over reason (set_direction (committed g) g))
               = committed g
            /\ board_kept g
                 (game_over reason (set_direction (committed g) g))
            /\ high_score (game_over reason (set_direction (committed g) g))
               = Z.max (high_score g) (score g)).
  { intros reason.
    destruct (game_over_spec reason (set_direction (committed g) g))
      as [H1 [H2 [H3 H4]]].
    destruct (game_over_high_score reason (set_direction (committed g) g))
      as [H5 _]. auto. }
  destruct (within g nh) eqn:Hw; simpl negb; cbv iota.
  - assert (Hm : mem nh (snake g) = true).
    { apply mem_In. apply within_spec in Hw. tauto. }
    rewrite Hm. eexists. split; [reflexivity |]. apply Hboth.
  - eexists. split; [reflexivity |]. apply Hboth.
Qed.

Lemma update_game_outcome (g g' : game) :
  update_game g = Some g' -> step_outcome g g'.
Proof.
  intros Hstep.
  destruct (GameState_eqb (state g) PLAYING) eqn:E.
  - apply GameState_eqb_eq in E.
    destruct (pos_eqb (committed g) (0, 0)) eqn:Hc.
    + apply pos_eqb_eq in Hc. rewrite (update_game_idle g E Hc) in Hstep.
      inversion Hstep; subst. apply step_waiting; auto.
    + apply pos_eqb_neq in Hc.
      assert (Hcol : forall nh, new_head_of g = Some nh ->
                ~ in_bounds g nh \/ In nh (snake g) -> step_outcome g g').
      { intros nh Hn Hbad.
        destruct (update_game_collision_full g nh E Hc Hn Hbad)
          as [g2 [Hg2 [Hst [Hr [Hd [Hk Hhs]]]]]].
        rewrite Hg2 in Hstep; inversion Hstep; subst.
        apply (step_collided g g' nh); auto. }
      destruct (new_head_of g) as [nh |] eqn:Hn.
      * destruct (within g nh) eqn:Hin;
          [destruct (mem nh (snake g)) eqn:Hm |].
        -- apply mem_In in Hm. apply (Hcol nh eq_refl). auto.
        -- apply within_spec in Hin. apply mem_not_In in Hm.
           destruct (update_game_move_full g nh E Hc Hn Hin Hm)
             as [g2 [Hg2 [Hst [HW [HH [Hd [Hnd [Hhs [Hse [Heat Hmove]]]]]]]]]].
           rewrite Hg2 in Hstep; inversion Hstep; subst.
           destruct (pos_eqb nh (food_pos g)) eqn:Hfood.
           ++ apply pos_eqb_eq in Hfood.
              destruct (Heat Hfood)
                as [Hsn [Hsc [Hgw [Hgh [g0 [Hf [H1 [H2 H3]]]]]]]].
              apply (step_ate g g' nh g0); auto.
           ++ apply pos_eqb_neq in Hfood.
              destruct (Hmove Hfood) as [Hsn [Hsc [Hf [Hgw Hgh]]]].
              apply (step_moved g g' nh); auto.
        -- apply (Hcol nh eq_refl). left.
           intros Hb. apply within_spec in Hb. congruence.
      * exfalso. unfold update_game in Hstep. rewrite E in Hstep.
        simpl in Hstep. rewrite (proj2 (pos_eqb_neq _ _) Hc) in Hstep.
        unfold new_head_of in Hn.
        destruct (snake g) as [| [hx hy] rest]; discriminate.
  - unfold update_game in Hstep. rewrite E in Hstep. simpl in Hstep.
    inversion Hstep; subst. apply step_skipped; [| reflexivity].
    intros H. rewrite H in E. discriminate E.
Qed.

(** ** Helpers for the play invariants *)

Lemma sorted_NoDup (l : list Z) : StronglySorted Z.lt l -> NoDup l.
Proof.
  induction 1 as [| x l Hs IH Hall]; constructor; [| exact IH].
  intros Hin. rewrite Forall_forall in Hall. specialize (Hall x Hin). lia.
Qed.

Lemma all_cells_NoDup (width height : Z) : NoDup (all_cells width height).
Proof.
  unfold all_cells.
  pose proof (sorted_NoDup _ (py_range_sorted 0 width CELL_SIZE eq_refl))
    as Hx.
  pose proof (sorted_NoDup _ (py_range_sorted 0 height CELL_SIZE eq_refl))
    as Hy.
  induction Hx as [| x xs Hnot Hnd IH]; simpl; [constructor |].
  apply NoDup_app.
  - clear -Hy. induction Hy as [| y ys Hnot Hnd IH]; simpl; constructor;
      [| exact IH].
    intros Hin. apply in_map_iff in Hin. destruct Hin as [y' [E Hy']].
    inversion E; subst. contradiction.
  - exact IH.
  - intros [a b] Hin Hin'. apply in_map_iff in Hin.
    destruct Hin as [y [E _]]. inversion E; subst.
    apply in_flat_map in Hin'. destruct Hin' as [x' [Hx' Hm]].
    apply in_map_iff in Hm. destruct Hm as [y' [E' _]].
    inversion E'; subst. contradiction.
Qed.

Lemma forallb_false {A : Type} (f : A -> bool) (l : list A) :
  forallb f l = false -> exists x, In x l /\ f x = false.
Proof.
  induction l as [| x l IH]; simpl; [discriminate |].
  destruct (f x) eqn:Hf; simpl.
  - intros H. destruct (IH H) as [y [Hy Hfy]]. exists y. auto.
  - intros _. exists x. auto.
Qed.

(** A snake with fewer segments than the smallest window has cells leaves
    a grid cell free. *)
Lemma free_cell_exists (g : game) :
  window_ok g ->
  Z.of_nat (List.length (snake g)) < min_cells ->
  exists c, grid_cell g c /\ ~ In c (snake g).
Proof.
  intros [Hw Hh] Hlen.
  destruct (forallb (fun c => mem c (snake g))
                    (all_cells MIN_WIDTH MIN_HEIGHT)) eqn:Hall.
  - exfalso. rewrite forallb_forall in Hall.
    assert (Hincl : incl (all_cells MIN_WIDTH MIN_HEIGHT) (snake g))
      by (intros c Hc; apply mem_In, Hall, Hc).
    pose proof (NoDup_incl_length
                  (all_cells_NoDup MIN_WIDTH MIN_HEIGHT) Hincl) as Hle.
    assert (Hn : List.length (all_cells MIN_WIDTH MIN_HEIGHT) = 384%nat)
      by (vm_compute; reflexivity).
    rewrite Hn in Hle. unfold min_cells in Hlen.
    change (MIN_WIDTH / CELL_SIZE * (MIN_HEIGHT / CELL_SIZE)) with 384
      in Hlen.
    lia.
  - apply forallb_false in Hall. destruct Hall as [[x y] [Hc Hm]].
    exists (x, y). split; [| apply mem_not_In; exact Hm].
    apply all_cells_In in Hc. rewrite !py_range_In in Hc.
    unfold grid_cell, in_bounds, inside; simpl.
    unfold MIN_WIDTH, MIN_HEIGHT in *. lia.
Qed.

(** With a grid cell free, the food is placed on a free grid cell. *)
Lemma spawn_food_avoids (g : game) :
  (exists c, grid_cell g c /\ ~ In c (snake g)) ->
  grid_cell g (fst (spawn_food g)) /\ ~ In (fst (spawn_food g)) (snake g).
Proof.
  pose proof (py_range_sorted 0 (WIDTH g) CELL_SIZE eq_refl) as Sx.
  pose proof (py_range_sorted 0 (HEIGHT g) CELL_SIZE eq_refl) as Sy.
  intros [c [Hc Hfree]].
  destruct (grid_cell_positive g c Hc) as [Hw Hh].
  destruct (spawn_food_cases g) as [[p [g' [E ->]]] | [_ ->]].
  - apply (trial_cell_free g p g' Hw Hh E).
  - destruct (scan_grid _ _ _) as [p |] eqn:Hscan.
    + destruct (scan_grid_some _ _ _ _ Sx Sy Hscan) as [H1 [H2 [H3 _]]].
      split; [apply grid_cell_in_ranges; auto | assumption].
    + exfalso. apply Hfree. rewrite scan_grid_none in Hscan.
      apply grid_cell_in_ranges in Hc. destruct c as [cx cy].
      apply Hscan; apply Hc.
Qed.

(** Where [reset_game] puts the snake and the food. *)
Lemma reset_game_food (g : game) :
  exists g0,
    food_pos (reset_game g) = fst (spawn_food g0)
    /\ snake g0 = snake (reset_game g)
    /\ WIDTH g0 = WIDTH g /\ HEIGHT g0 = HEIGHT g
    /\ snake (reset_game g)
       = [(WIDTH g / CELL_SIZE / 2 * CELL_SIZE,
           HEIGHT g / CELL_SIZE / 2 * CELL_SIZE)]
    /\ score (reset_game g) = 0
    /\ direction (reset_game g) = (0, 0)
    /\ next_direction (reset_game g) = (0, 0)
    /\ state (reset_game g) = state g
    /\ WIDTH (reset_game g) = WIDTH g /\ HEIGHT (reset_game g) = HEIGHT g
    /\ high_score (reset_game g) = high_score g
    /\ settings (reset_game g) = settings g
    /\ GRID_WIDTH (reset_game g) = WIDTH g / CELL_SIZE
    /\ GRID_HEIGHT (reset_game g) = HEIGHT g / CELL_SIZE.
Proof.
  unfold reset_game.
  match goal with |- context [spawn_food ?g0] =>
    exists g0;
    destruct (spawn_food_shape g0) as [r Hr];
    destruct (spawn_food g0) as [food g'] end.
  simpl in Hr. subst g'. simpl. repeat split; reflexivity.
Qed.

(** What a resize leaves alone in every state. *)
Lemma handle_resize_keeps (w h : Z) (g : game) :
  score (handle_resize w h g) = score g
  /\ direction (handle_resize w h g) = direction g
  /\ next_direction (handle_resize w h g) = next_direction g
  /\ settings (handle_resize w h g) = settings g
  /\ high_score g <= high_score (handle_resize w h g).
Proof.
  unfold handle_resize.
  match goal with |- context [GameState_eqb (state ?g0) PLAYING] =>
    set (g1 := g0) end.
  assert (H1 : score g1 = score g /\ direction g1 = direction g
               /\ next_direction g1 = next_direction g
               /\ settings g1 = settings g /\ high_score g1 = high_score g)
    by (repeat split; reflexivity).
  clearbody g1.
  destruct (GameState_eqb (state g1) PLAYING);
    [| destruct H1 as [-> [-> [-> [-> ->]]]]; repeat split; lia].
  unfold check_bounds_after_resize.
  match goal with |- context [filter (within ?gA) _] => set (g2 := gA) end.
  assert (H2 : score g2 = score g /\ direction g2 = direction g
               /\ next_direction g2 = next_direction g
               /\ settings g2 = settings g /\ high_score g2 = high_score g).
  { subst g2. destruct (_ || _); [| exact H1].
    destruct (spawn_food_shape g1) as [r Hr].
    destruct (spawn_food g1) as [food g']. simpl in Hr. subst g'.
    simpl. exact H1. }
  clearbody g2.
  assert (Hover : forall g3,
            score g3 = score g2 -> direction g3 = direction g2 ->
            next_direction g3 = next_direction g2 ->
            settings g3 = settings g2 -> high_score g3 = high_score g2 ->
            score (game_over resize_reason g3) = score g
            /\ direction (game_over resize_reason g3) = direction g
            /\ next_direction (game_over resize_reason g3)
               = next_direction g
            /\ settings (game_over resize_reason g3) = settings g
            /\ high_score g <= high_score (game_over resize_reason g3)).
  { intros g3 E1 E2 E3 E4 E5.
    destruct (game_over_spec resize_reason g3)
      as [_ [_ [Kd [_ [_ [_ [_ [_ [_ [Ks [Kn _]]]]]]]]]]].
    destruct (game_over_high_score resize_reason g3) as [Kh Kse].
    destruct H2 as [A1 [A2 [A3 [A4 A5]]]].
    rewrite Ks, Kd, Kn, Kse, Kh. repeat split; try congruence. lia. }
  cbv zeta.
  destruct (is_empty _ || _); [apply Hover; reflexivity |].
  destruct (is_empty _); [apply Hover; reflexivity |].
  simpl. destruct H2 as [-> [-> [-> [-> ->]]]]. repeat split; lia.
Qed.

Lemma handle_resize_snake (w h : Z) (g : game) :
  snake (handle_resize w h g) = snake g
  \/ exists head rest,
       snake g = head :: rest
       /\ insideb (snapped w MIN_WIDTH) (snapped h MIN_HEIGHT) head = true
       /\ snake (handle_resize w h g)
          = filter (insideb (snapped w MIN_WIDTH) (snapped h MIN_HEIGHT))
                   (snake g).
Proof.
  destruct (GameState_eqb (state g) PLAYING) eqn:E.
  - apply GameState_eqb_eq in E.
    destruct (handle_resize_playing w h g E)
      as [g1 [_ [Hsn [_ [_ [_ [_ [_ ->]]]]]]]].
    destruct (game_over_spec resize_reason g1)
      as [_ [_ [_ [_ [_ [_ [_ [Ko5 _]]]]]]]].
    destruct (snake g) as [| head rest] eqn:Esn; [left; congruence |].
    destruct (insideb _ _ head) eqn:Ehead; [| left; congruence].
    right. exists head, rest. auto.
  - left. rewrite handle_resize_not_playing
      by (intros H; rewrite H in E; discriminate E).
    reflexivity.
Qed.

Lemma filter_length_le {A : Type} (f : A -> bool) (l : list A) :
  (List.length (filter f l) <= List.length l)%nat.
Proof.
  induction l as [| x l IH]; simpl; [lia |].
  destruct (f x); simpl; lia.
Qed.

(** A property that [__init__] establishes: it holds after [reset_game] on
    the default window and does not depend on the particle pools. *)
Lemma init_establishes (P : game -> Prop) :
  (forall g, P g -> P (set_food_particles [] (set_particles [] g))) ->
  (forall g, WIDTH g = DEFAULT_WIDTH -> HEIGHT g = DEFAULT_HEIGHT ->
             state g = MENU -> P (reset_game g)) ->
  forall s hs r, P (init s hs r).
Proof.
  intros Hpools Hreset s hs r. unfold init. cbv zeta.
  apply Hpools, Hreset; reflexivity.
Qed.

(** ** The snake along a play *)

Lemma snake_ok_reset (g : game) : snake_ok (reset_game g).
Proof.
  destruct (reset_game_food g) as [g0 [_ [_ [_ [_ [Hsn [Hsc _]]]]]]].
  unfold snake_ok. rewrite Hsn, Hsc. simpl.
  split; [discriminate |]. split; [| lia].
  constructor; [intros [] | constructor].
Qed.

Lemma snake_ok_resize (w h : Z) (g : game) :
  snake_ok g -> snake_ok (handle_resize w h g).
Proof.
  intros [Hne [Hnd [Hsc Hlen]]].
  destruct (handle_resize_keeps w h g) as [Ks _].
  unfold snake_ok. rewrite Ks.
  destruct (handle_resize_snake w h g)
    as [-> | [head [rest [Esn [Ehead ->]]]]]; [auto |].
  split; [| split; [apply NoDup_filter; exact Hnd | split; [exact Hsc |]]].
  - rewrite Esn. simpl. rewrite Ehead. discriminate.
  - pose proof (filter_length_le
                  (insideb (snapped w MIN_WIDTH) (snapped h MIN_HEIGHT))
                  (snake g)). lia.
Qed.

Lemma snake_ok_step (g g' : game) :
  snake_ok g -> update_game g = Some g' -> snake_ok g'.
Proof.
  intros [Hne [Hnd [Hsc Hlen]]] Hstep. unfold snake_ok.
  destruct (update_game_outcome g g' Hstep)
    as [_ -> | _ _ -> | nh _ _ _ _ _ _ _ Hk _
        | nh g0 _ _ _ _ Hfree _ _ _ _ _ _ _ _ Hsn Hs _ _ _ _
        | nh _ _ _ _ Hfree _ _ _ _ _ _ _ _ Hsn Hs _].
  - auto.
  - simpl. auto.
  - destruct Hk as [_ [_ [_ [_ [-> [_ [-> _]]]]]]]. auto.
  - rewrite Hsn, Hs. split; [discriminate |].
    split; [constructor; assumption |]. simpl List.length. lia.
  - rewrite Hsn, Hs.
    assert (Hl : List.length (pop_last (nh :: snake g))
                 = List.length (snake g)) by apply pop_last_length.
    split; [| split; [apply pop_last_NoDup; constructor; assumption |]].
    + intros E. rewrite E in Hl. simpl in Hl.
      destruct (snake g); [contradiction | discriminate Hl].
    + rewrite Hl. auto.
Qed.

Lemma snake_ok_frames (inputs : list (list Event)) (g g' : game) :
  snake_ok g -> frames inputs g = Some g' -> snake_ok g'.
Proof.
  apply (frames_preserve snake_ok).
  - intros g0 _. apply snake_ok_reset.
  - intros v g0 H. exact H.
  - intros v g0 H. exact H.
  - intros w h g0. apply snake_ok_resize.
  - apply snake_ok_step.
  - intros g0 H. exact H.
Qed.

Lemma snake_ok_init (s : Settings) (hs : Z) (r : Rng) :
  snake_ok (init s hs r).
Proof.
  apply (init_establishes snake_ok).
  - intros g H. exact H.
  - intros g _ _ _. apply snake_ok_reset.
Qed.



(** X2.  In every game that a play reaches, the snake is not empty, has
    no cell twice, the score is not negative and the snake has at most
    score + 1 segments. *)
Theorem play_keeps_snake (inputs : list (list Event))
    (s : Settings) (hs : Z) (r : Rng) (g : game) :
  frames inputs (init s hs r) = Some g ->
  snake g <> [] /\ NoDup (snake g) /\ 0 <= score g
  /\ Z.of_nat (List.length (snake g)) <= score g + 1.
Proof.
  intros Hrun.
  exact (snake_ok_frames inputs _ g (snake_ok_init s hs r) Hrun).
Qed.

Lemma curl_game_reached :
  frames curl_inputs (init default_settings 0 curl_tape) = Some curl_game.
Proof. vm_compute. reflexivity. Qed.

Lemma play_keeps_snake_witness :
  snake curl_game <> [] /\ NoDup (snake curl_game) /\ 0 <= score curl_game
  /\ Z.of_nat (List.length (snake curl_game)) <= score curl_game + 1.
Proof.
  apply (play_keeps_snake curl_inputs default_settings 0 curl_tape).
  vm_compute. reflexivity.
Defined.

(** ** The directions along a play *)

















(** ** The food along a play *)

Lemma food_off_placed (g0 : game) (body : list Pos) (total : Z) :
  window_ok g0 -> snake g0 = body ->
  Z.of_nat (List.length body) <= total + 1 ->
  total + 1 < min_cells ->
  ~ In (fst (spawn_food g0)) body.
Proof.
  intros Hw Hsn Hlen Hsmall. rewrite <- Hsn.
  apply spawn_food_avoids. apply free_cell_exists; [exact Hw |].
  rewrite Hsn. lia.
Qed.

Lemma food_off_reset (g : game) :
  window_ok g -> food_off_snake (reset_game g).
Proof.
  intros Hw.
  destruct (reset_game_food g)
    as [g0 [Hf [Hs0 [Hw0 [Hh0 [Hsn [Hsc [_ [_ [_ [HW [HH _]]]]]]]]]]]].
  unfold food_off_snake, window_ok. rewrite HW, HH, Hsc, Hf.
  split; [exact Hw |]. split; [rewrite Hsn; simpl; lia |].
  intros Hsmall. apply (food_off_placed g0 _ 0).
  - unfold window_ok. rewrite Hw0, Hh0. exact Hw.
  - exact Hs0.
  - rewrite Hsn; simpl; lia.
  - exact Hsmall.
Qed.

Lemma food_off_resize (w h : Z) (g : game) :
  food_off_snake g -> food_off_snake (handle_resize w h g).
Proof.
  intros [Hw [Hlen Hoff]].
  pose proof (handle_resize_window w h g) as Hw'.
  destruct (handle_resize_keeps w h g) as [Ks _].
  unfold food_off_snake. rewrite Ks. split; [exact Hw' |].
  pose proof (snapped_at_least w MIN_WIDTH eq_refl) as Lw.
  pose proof (snapped_at_least h MIN_HEIGHT eq_refl) as Lh.
  destruct (GameState_eqb (state g) PLAYING) eqn:E.
  - apply GameState_eqb_eq in E.
    destruct (handle_resize_playing w h g E)
      as [g1 [Hf [Hsn [_ [_ [_ [_ [_ Hres]]]]]]]].
    cbv zeta in Hf.
    assert (Hfood : score g + 1 < min_cells ->
                    ~ In (food_pos g1) (snake g)).
    { intros Hsmall. rewrite Hf.
      destruct (_ || _); [| apply Hoff; exact Hsmall].
      apply (food_off_placed _ _ (score g)); try assumption.
      - split; assumption.
      - reflexivity. }
    destruct (game_over_spec resize_reason g1)
      as [_ [_ [_ [_ [_ [_ [_ [Ko5 [Ko6 _]]]]]]]]].
    assert (Hover : Z.of_nat (List.length
                                (snake (game_over resize_reason g1)))
                    <= score g + 1
                    /\ (score g + 1 < min_cells ->
                        ~ In (food_pos (game_over resize_reason g1))
                             (snake (game_over resize_reason g1)))).
    { rewrite Ko5, Ko6, Hsn. split; [exact Hlen | exact Hfood]. }
    rewrite Hres.
    destruct (snake g) as [| head rest] eqn:Esn; [exact Hover |].
    destruct (insideb _ _ head); [| exact Hover].
    cbn [snake food_pos set_snake]. split.
    + pose proof (filter_length_le
                    (insideb (snapped w MIN_WIDTH) (snapped h MIN_HEIGHT))
                    (head :: rest)). lia.
    + intros Hsmall Hin. apply filter_In in Hin.
      apply (Hfood Hsmall). apply Hin.
  - rewrite handle_resize_not_playing
      by (intros H; rewrite H in E; discriminate E).
    split; [exact Hlen | exact Hoff].
Qed.

Lemma food_off_step (g g' : game) :
  food_off_snake g -> update_game g = Some g' -> food_off_snake g'.
Proof.
  intros [Hw [Hlen Hoff]] Hstep. unfold food_off_snake, window_ok.
  destruct (update_game_outcome g g' Hstep)
    as [_ -> | _ _ -> | nh _ _ _ _ _ _ _ Hk _
        | nh g0 _ _ _ _ Hfree _ _ HW HH _ _ _ _ Hsn Hs Hf H0 W0 H0' _ _
        | nh _ _ _ _ Hfree Hne _ HW HH _ _ _ _ Hsn Hs Hf _ _].
  - auto.
  - simpl. auto.
  - destruct Hk as [-> [-> [_ [_ [-> [-> [-> _]]]]]]]. auto.
  - rewrite HW, HH, Hsn, Hs, Hf. split; [exact Hw |].
    split; [simpl List.length; lia |].
    intros Hsmall. apply (food_off_placed g0 _ (score g + 1)).
    + unfold window_ok. rewrite W0, H0'. exact Hw.
    + exact H0.
    + simpl List.length. lia.
    + exact Hsmall.
  - rewrite HW, HH, Hsn, Hs, Hf. split; [exact Hw |].
    rewrite pop_last_length. split; [exact Hlen |].
    intros Hsmall Hin. apply pop_last_In in Hin.
    destruct Hin as [E | Hin]; [apply Hne; exact E |].
    apply (Hoff Hsmall Hin).
Qed.

Lemma food_off_frames (inputs : list (list Event)) (g g' : game) :
  food_off_snake g -> frames inputs g = Some g' -> food_off_snake g'.
Proof.
  apply (frames_preserve food_off_snake).
  - intros g0 [H _]. apply food_off_reset. exact H.
  - intros v g0 H. exact H.
  - intros v g0 H. exact H.
  - intros w h g0. apply food_off_resize.
  - apply food_off_step.
  - intros g0 H. exact H.
Qed.

Lemma food_off_init (s : Settings) (hs : Z) (r : Rng) :
  food_off_snake (init s hs r).
Proof.
  apply (init_establishes food_off_snake).
  - intros g H. exact H.
  - intros g HW HH _. apply food_off_reset.
    unfold window_ok. rewrite HW, HH.
    unfold MIN_WIDTH, MIN_HEIGHT, DEFAULT_WIDTH, DEFAULT_HEIGHT. lia.
Qed.

(** X4.  In every game that a play reaches with a score below 383 (the
    smallest window has 384 cells), the food is not on the snake. *)
Theorem play_keeps_food_off_snake (inputs : list (list Event))
    (s : Settings) (hs : Z) (r : Rng) (g : game) :
  frames inputs (init s hs r) = Some g ->
  score g < 383 ->
  ~ In (food_pos g) (snake g).
Proof.
  intros Hrun Hsmall.
  destruct (food_off_frames inputs _ g (food_off_init s hs r) Hrun)
    as [_ [_ Hoff]].
  apply Hoff. change min_cells with 384. lia.
Qed.

Lemma play_keeps_food_off_snake_witness :
  ~ In (food_pos curl_game) (snake curl_game).
Proof.
  apply (play_keeps_food_off_snake curl_inputs default_settings 0
           curl_tape).
  - vm_compute. reflexivity.
  - vm_compute. reflexivity.
Defined.

(** ** The window along a play *)

Lemma snapped_bounds (extent lowest : Z) :
  snapped extent lowest mod CELL_SIZE = 0
  /\ Z.max extent lowest - CELL_SIZE < snapped extent lowest
     <= Z.max extent lowest
  /\ snapped extent lowest / CELL_SIZE * CELL_SIZE = snapped extent lowest.
Proof.
  unfold snapped, CELL_SIZE.
  split; [apply Z.mod_mul; lia |].
  split; [Z.div_mod_to_equations; lia |].
  rewrite Z.div_mul by lia. reflexivity.
Qed.

Lemma handle_resize_grid (w h : Z) (g : game) :
  WIDTH (handle_resize w h g) = snapped w MIN_WIDTH
  /\ HEIGHT (handle_resize w h g) = snapped h MIN_HEIGHT
  /\ GRID_WIDTH (handle_resize w h g) = snapped w MIN_WIDTH / CELL_SIZE
  /\ GRID_HEIGHT (handle_resize w h g) = snapped h MIN_HEIGHT / CELL_SIZE.
Proof.
  destruct (GameState_eqb (state g) PLAYING) eqn:E.
  - apply GameState_eqb_eq in E.
    destruct (handle_resize_playing w h g E)
      as [g1 [_ [_ [_ [HW [HH [HGW [HGH ->]]]]]]]].
    destruct (game_over_spec resize_reason g1)
      as [_ [_ [_ [Ko1 [Ko2 [Ko3 [Ko4 _]]]]]]].
    assert (Hover : WIDTH (game_over resize_reason g1) = snapped w MIN_WIDTH
      /\ HEIGHT (game_over resize_reason g1) = snapped h MIN_HEIGHT
      /\ GRID_WIDTH (game_over resize_reason g1)
         = snapped w MIN_WIDTH / CELL_SIZE
      /\ GRID_HEIGHT (game_over resize_reason g1)
         = snapped h MIN_HEIGHT / CELL_SIZE)
      by (repeat split; congruence).
    destruct (snake g) as [| head rest]; [exact Hover |].
    destruct (insideb _ _ head); [| exact Hover].
    cbn [WIDTH HEIGHT GRID_WIDTH GRID_HEIGHT set_snake]. auto.
  - rewrite handle_resize_not_playing
      by (intros H; rewrite H in E; discriminate E).
    repeat split; reflexivity.
Qed.

(** X5.  After a resize request of any size, in any state: the window is at
    least 600 by 400, both extents are whole numbers of cells and are the
    request (raised to the minimum) rounded down by less than one cell, and
    the grid extents times the cell size give the window. *)
Theorem resize_window (w h : Z) (g : game) :
  MIN_WIDTH <= WIDTH (handle_resize w h g)
  /\ MIN_HEIGHT <= HEIGHT (handle_resize w h g)
  /\ WIDTH (handle_resize w h g) mod CELL_SIZE = 0
  /\ HEIGHT (handle_resize w h g) mod CELL_SIZE = 0
  /\ Z.max w MIN_WIDTH - CELL_SIZE < WIDTH (handle_resize w h g)
     <= Z.max w MIN_WIDTH
  /\ Z.max h MIN_HEIGHT - CELL_SIZE < HEIGHT (handle_resize w h g)
     <= Z.max h MIN_HEIGHT
  /\ GRID_WIDTH (handle_resize w h g) * CELL_SIZE
     = WIDTH (handle_resize w h g)
  /\ GRID_HEIGHT (handle_resize w h g) * CELL_SIZE
     = HEIGHT (handle_resize w h g).
Proof.
  destruct (handle_resize_grid w h g) as [-> [-> [-> ->]]].
  destruct (snapped_bounds w MIN_WIDTH) as [A1 [A2 A3]].
  destruct (snapped_bounds h MIN_HEIGHT) as [B1 [B2 B3]].
  pose proof (snapped_at_least w MIN_WIDTH eq_refl).
  pose proof (snapped_at_least h MIN_HEIGHT eq_refl).
  repeat split; try assumption; lia.
Qed.

Lemma grid_ok_resize (w h : Z) (g : game) : grid_ok (handle_resize w h g).
Proof.
  unfold grid_ok, window_ok.
  destruct (handle_resize_grid w h g) as [-> [-> [-> ->]]].
  destruct (snapped_bounds w MIN_WIDTH) as [A1 _].
  destruct (snapped_bounds h MIN_HEIGHT) as [B1 _].
  pose proof (snapped_at_least w MIN_WIDTH eq_refl).
  pose proof (snapped_at_least h MIN_HEIGHT eq_refl).
  repeat split; assumption.
Qed.

Lemma grid_ok_reset (g : game) : grid_ok g -> grid_ok (reset_game g).
Proof.
  intros [Hw [Hm1 [Hm2 _]]].
  destruct (reset_game_food g)
    as [g0 [_ [_ [_ [_ [_ [_ [_ [_ [_ [HW [HH [_ [_ [HG1 HG2]]]]]]]]]]]]]]].
  unfold grid_ok, window_ok. rewrite HW, HH, HG1, HG2.
  repeat split; try assumption; apply Hw.
Qed.

Lemma grid_ok_step (g g' : game) :
  grid_ok g -> update_game g = Some g' -> grid_ok g'.
Proof.
  intros [Hw [Hm1 [Hm2 [Hg1 Hg2]]]] Hstep. unfold grid_ok, window_ok.
  destruct (update_game_outcome g g' Hstep)
    as [_ -> | _ _ -> | nh _ _ _ _ _ _ _ Hk _
        | nh g0 _ _ _ _ _ _ _ HW HH _ _ _ _ _ _ _ _ _ _ G1 G2
        | nh _ _ _ _ _ _ _ HW HH _ _ _ _ _ _ _ G1 G2].
  - repeat split; try assumption; apply Hw.
  - simpl. repeat split; try assumption; apply Hw.
  - destruct Hk as [-> [-> [-> [-> _]]]].
    repeat split; try assumption; apply Hw.
  - rewrite HW, HH, G1, G2. repeat split; try assumption; apply Hw.
  - rewrite HW, HH, G1, G2. repeat split; try assumption; apply Hw.
Qed.

Lemma grid_ok_frames (inputs : list (list Event)) (g g' : game) :
  grid_ok g -> frames inputs g = Some g' -> grid_ok g'.
Proof.
  apply (frames_preserve grid_ok).
  - apply grid_ok_reset.
  - intros v g0 H. exact H.
  - intros v g0 H. exact H.
  - intros w h g0 _. apply grid_ok_resize.
  - apply grid_ok_step.
  - intros g0 H. exact H.
Qed.

Lemma grid_ok_init (s : Settings) (hs : Z) (r : Rng) : grid_ok (init s hs r).
Proof.
  apply (init_establishes grid_ok).
  - intros g H. exact H.
  - intros g HW HH _.
    destruct (reset_game_food g)
      as [g0 [_ [_ [_ [_ [_ [_ [_ [_ [_ [HW' [HH' [_ [_ [G1 G2]]]]]]]]]]]]]]].
    unfold grid_ok, window_ok. rewrite HW', HH', G1, G2, HW, HH.
    unfold MIN_WIDTH, MIN_HEIGHT, DEFAULT_WIDTH, DEFAULT_HEIGHT, CELL_SIZE.
    repeat split; try reflexivity; lia.
Qed.

(** X6.  In every game that a play reaches, the window is at least 600 by
    400 and a whole number of cells each way, the cached grid extents are
    the window extents divided by the cell size, and the food has
    non-negative coordinates. *)
Theorem play_keeps_window (inputs : list (list Event))
    (s : Settings) (hs : Z) (r : Rng) (g : game) :
  frames inputs (init s hs r) = Some g ->
  MIN_WIDTH <= WIDTH g /\ MIN_HEIGHT <= HEIGHT g
  /\ WIDTH g mod CELL_SIZE = 0 /\ HEIGHT g mod CELL_SIZE = 0
  /\ GRID_WIDTH g = WIDTH g / CELL_SIZE
  /\ GRID_HEIGHT g = HEIGHT g / CELL_SIZE
  /\ 0 <= fst (food_pos g) /\ 0 <= snd (food_pos g).
Proof.
  intros Hrun.
  destruct (grid_ok_frames inputs _ g (grid_ok_init s hs r) Hrun)
    as [[H1 H2] [H3 [H4 [H5 H6]]]].
  destruct (init_spec s hs r) as [_ [_ [_ Hfood]]].
  destruct (food_nonneg_frames inputs _ g Hfood Hrun) as [H7 H8].
  repeat split; assumption.
Qed.

Lemma play_keeps_window_witness :
  MIN_WIDTH <= WIDTH curl_game /\ MIN_HEIGHT <= HEIGHT curl_game
  /\ WIDTH curl_game mod CELL_SIZE = 0 /\ HEIGHT curl_game mod CELL_SIZE = 0
  /\ GRID_WIDTH curl_game = WIDTH curl_game / CELL_SIZE
  /\ GRID_HEIGHT curl_game = HEIGHT curl_game / CELL_SIZE
  /\ 0 <= fst (food_pos curl_game) /\ 0 <= snd (food_pos curl_game).
Proof.
  apply (play_keeps_window curl_inputs default_settings 0 curl_tape).
  vm_compute. reflexivity.
Defined.

(** ** The state machine *)






Lemma state_set_state (v : GameState) (g : game) : state (set_state v g) = v.
Proof. reflexivity. Qed.

Lemma state_reset_game (g : game) : state (reset_game g) = state g.
Proof.
  destruct (reset_game_food g) as [g0 [_ [_ [_ [_ [_ [_ [_ [_ [H _]]]]]]]]]].
  exact H.
Qed.

Lemma handle_playing_state (event : Event) (g : game) :
  state g <> GAME_OVER -> state (handle_playing_events event g) <> GAME_OVER.
Proof.
  intros Hg. unfold handle_playing_events.
  destruct event as [| w h | key |]; try exact Hg.
  destruct (Key_eqb key K_ESCAPE); [rewrite state_set_state; discriminate |].
  destruct (Key_eqb key K_r); [rewrite state_reset_game; exact Hg |].
  repeat match goal with
         | |- context [if ?c then _ else _] => destruct c
         end; exact Hg.
Qed.

(** X8.  Keys never end a game: while no resize is among the events, the
    event loop takes a game that is not over to a game that is not over.
    Only a step or a resize reaches GAME_OVER. *)
Theorem keys_never_end_game (events : list Event) :
  forall running g,
    no_resize events = true ->
    state g <> GAME_OVER ->
    state (snd (pump events running g)) <> GAME_OVER.
Proof.
  induction events as [| event rest IH]; intros running g Hno Hg;
    [exact Hg |].
  simpl in Hno. apply andb_true_iff in Hno. destruct Hno as [He Hno].
  destruct event as [| w h | key |].
  - exact Hg.
  - discriminate He.
  - cbn [pump]. destruct (state g) eqn:Hs.
    + unfold handle_menu_events.
      destruct (Key_eqb key K_SPACE || Key_eqb key K_RETURN).
      * apply IH; [exact Hno |].
        rewrite state_reset_game, state_set_state. discriminate.
      * destruct (Key_eqb key K_s);
          [apply IH; [exact Hno | rewrite state_set_state; discriminate] |].
        destruct (Key_eqb key K_ESCAPE || Key_eqb key K_q);
          apply IH; try exact Hno; rewrite Hs; discriminate.
    + apply IH; [exact Hno |]. apply handle_playing_state.
      rewrite Hs. discriminate.
    + apply IH; [exact Hno |]. unfold handle_paused_events.
      destruct (Key_eqb key K_SPACE || Key_eqb key K_ESCAPE);
        [rewrite state_set_state; discriminate |].
      destruct (Key_eqb key K_m); [rewrite state_set_state; discriminate |].
      destruct (Key_eqb key K_r);
        [rewrite state_set_state; discriminate | rewrite Hs; discriminate].
    + contradiction.
    + apply IH; [exact Hno | rewrite Hs; discriminate].
  - cbn [pump]. destruct (state g) eqn:Hs; simpl; apply IH;
      try exact Hno; rewrite Hs; try discriminate. contradiction.
Qed.

Lemma keys_never_end_game_witness :
  state (snd (pump [KEYDOWN K_a; KEYDOWN K_s; KEYDOWN K_r; KEYDOWN K_ESCAPE;
                    KEYDOWN K_m; OtherEvent] true going_up))
  <> GAME_OVER.
Proof.
  apply (keys_never_end_game
           [KEYDOWN K_a; KEYDOWN K_s; KEYDOWN K_r; KEYDOWN K_ESCAPE;
            KEYDOWN K_m; OtherEvent] true going_up).
  - reflexivity.
  - discriminate.
Defined.

(** X9.  A step ends the game only on a collision: when [update_game] takes
    a game in play to GAME_OVER, the committed direction is not zero and
    the new head is outside the window, with the reason "Hit the wall!", or
    inside it and on the snake, with the reason "Ate yourself!"; any other
    step leaves the game in play. *)
Theorem step_ends_only_on_collision (g g' : game) :
  state g = PLAYING ->
  update_game g = Some g' ->
  (state g' = PLAYING \/ state g' = GAME_OVER)
  /\ (state g' = GAME_OVER ->
      committed g <> (0, 0)
      /\ exists nh, new_head_of g = Some nh
           /\ (~ in_bounds g nh /\ game_over_reason g' = wall_reason
               \/ in_bounds g nh /\ In nh (snake g)
                  /\ game_over_reason g' = self_reason)).
Proof.
  intros Hs Hstep.
  destruct (update_game_outcome g g' Hstep)
    as [Hn _ | _ _ -> | nh _ Hc Hnh Hbad Hst Hr _ _ _
        | nh g0 _ _ _ _ _ _ Hst _ _ _ _ _ _ _ _ _ _ _ _ _ _
        | nh _ _ _ _ _ _ Hst _ _ _ _ _ _ _ _ _ _ _].
  - contradiction.
  - simpl. rewrite Hs. split; [auto | discriminate].
  - split; [auto |]. intros _. split; [exact Hc |].
    exists nh. split; [exact Hnh |].
    destruct (within g nh) eqn:Hw.
    + right. apply within_spec in Hw.
      destruct Hbad as [Hb | Hb]; [contradiction | auto].
    + left. split; [| exact Hr].
      intros Hb. apply within_spec in Hb. congruence.
  - rewrite Hst. split; [auto | discriminate].
  - rewrite Hst. split; [auto | discriminate].
Qed.

Lemma step_ends_only_on_collision_witness :
  exists g',
    update_game turning_into_wall = Some g'
    /\ (state g' = PLAYING \/ state g' = GAME_OVER)
    /\ (state g' = GAME_OVER ->
        committed turning_into_wall <> (0, 0)
        /\ exists nh, new_head_of turning_into_wall = Some nh
             /\ (~ in_bounds turning_into_wall nh
                 /\ game_over_reason g' = wall_reason
                 \/ in_bounds turning_into_wall nh
                    /\ In nh (snake turning_into_wall)
                    /\ game_over_reason g' = self_reason)).
Proof.
  destruct (update_game turning_into_wall) as [g' |] eqn:E.
  - exists g'. split; [reflexivity |].
    apply (step_ends_only_on_collision turning_into_wall g');
      [reflexivity | exact E].
  - exfalso. vm_compute in E. discriminate E.
Defined.

(** X10.  The frame rate follows the score: a step never lowers it and
    raises it by at most one, and with [speed_increase] off it stays at
    [base_speed]. *)
Theorem step_frame_rate (g g' : game) :
  update_game g = Some g' ->
  fps g <= fps g' <= fps g + 1
  /\ (speed_increase (settings g) = false ->
      fps g' = base_speed (settings g)).
Proof.
  intros Hstep.
  assert (H : settings g' = settings g
              /\ (score g' = score g \/ score g' = score g + 1)).
  { destruct (update_game_outcome g g' Hstep)
      as [_ -> | _ _ -> | nh _ _ _ _ _ _ _ Hk _
          | nh g0 _ _ _ _ _ _ _ _ _ _ _ _ Hse _ Hsc _ _ _ _ _ _
          | nh _ _ _ _ _ _ _ _ _ _ _ _ Hse _ Hsc _ _ _]; auto.
    destruct Hk as [_ [_ [_ [_ [_ [_ [Hsc [_ [_ [_ [_ Hse]]]]]]]]]]]. auto. }
  destruct H as [Hse Hsc]. unfold fps. rewrite Hse.
  destruct (speed_increase (settings g)).
  - split; [| discriminate].
    destruct Hsc as [-> | ->]; Z.div_mod_to_equations; lia.
  - split; [lia | intros _; lia].
Qed.

Lemma step_frame_rate_witness :
  exists g',
    update_game turn_game = Some g'
    /\ fps turn_game <= fps g' <= fps turn_game + 1
    /\ (speed_increase (settings turn_game) = false ->
        fps g' = base_speed (settings turn_game)).
Proof.
  destruct (update_game turn_game) as [g' |] eqn:E.
  - exists g'. split; [reflexivity |].
    apply (step_frame_rate turn_game g'). exact E.
  - exfalso. vm_compute in E. discriminate E.
Defined.

(** ** The end of a game and its particles *)

Lemma emit_particles_burst (count : nat) (pos : Pos) (color : Color) :
  forall g, exists burst,
    particles (emit_particles count pos color g) = particles g ++ burst
    /\ List.length burst = count
    /\ Forall (fun p => p_centre p = cell_centre pos /\ p_color p = color
                        /\ p_max_life p = 60 /\ p_travel p = 0%Q) burst.
Proof.
  induction count as [| count IH]; intros g.
  - exists []. simpl. rewrite app_nil_r. auto.
  - cbn [emit_particles random uniform].
    match goal with |- context [emit_particles count pos color ?g1] =>
      destruct (IH g1) as [burst [Hp [Hl Hall]]]; rewrite Hp end.
    cbn [particles set_rand set_particles].
    rewrite <- app_assoc. eexists. split; [reflexivity |].
    split; [simpl; rewrite Hl; reflexivity |].
    constructor; [simpl; auto | exact Hall].
Qed.

Lemma create_particles_on (pos : Pos) (color : Color) (count : nat)
    (g : game) :
  particles_enabled (settings g) = true ->
  exists burst,
    particles (create_particles pos color count g) = particles g ++ burst
    /\ List.length burst = count
    /\ Forall (fun p => p_centre p = cell_centre pos /\ p_color p = color
                        /\ p_max_life p = 60 /\ p_travel p = 0%Q) burst.
Proof.
  unfold create_particles. intros ->. simpl. apply emit_particles_burst.
Qed.

(** X11.  [create_particles] with particles switched on appends exactly
    [count] particles to the explosion pool, each at the centre of the
    given cell, in the given colour, with a maximal life of 60; with
    particles switched off it leaves the game as it is. *)
Theorem create_particles_burst (pos : Pos) (color : Color) (count : nat)
    (g : game) :
  (particles_enabled (settings g) = true ->
   exists burst,
     particles (create_particles pos color count g) = particles g ++ burst
     /\ List.length burst = count
     /\ Forall (fun p => p_centre p = cell_centre pos /\ p_color p = color
                         /\ p_max_life p = 60 /\ p_travel p = 0%Q) burst)
  /\ (particles_enabled (settings g) = false ->
      create_particles pos color count g = g).
Proof.
  split.
  - apply create_particles_on.
  - unfold create_particles. intros ->. reflexivity.
Qed.

Lemma create_particles_burst_witness :
  (exists burst,
     particles (create_particles (50, 75) COLORS_food 20 going_up)
     = particles going_up ++ burst
     /\ List.length burst = 20%nat
     /\ Forall (fun p => p_centre p = cell_centre (50, 75)
                         /\ p_color p = COLORS_food
                         /\ p_max_life p = 60 /\ p_travel p = 0%Q) burst)
  /\ create_particles (50, 75) COLORS_food 20
       (set_state PAUSED
          (mkGame 1000 700 40 28 PLAYING [(500, 350)] (0, 0) (0, 0) (0, 0) 0
             EmptyString [] [] 0 0 (mkSettings 8 true true false true) 0
             (mkRng [] [])))
     = set_state PAUSED
         (mkGame 1000 700 40 28 PLAYING [(500, 350)] (0, 0) (0, 0) (0, 0) 0
            EmptyString [] [] 0 0 (mkSettings 8 true true false true) 0
            (mkRng [] [])).
Proof.
  split.
  - apply (proj1 (create_particles_burst (50, 75) COLORS_food 20 going_up)).
    reflexivity.
  - apply (proj2 (create_particles_burst (50, 75) COLORS_food 20 _)).
    reflexivity.
Defined.

(** X12.  [game_over] records the reason, moves to GAME_OVER, and sets the
    high score to the larger of the old record and the score, so the record
    never falls and is at least the score afterwards.  With particles on
    and a snake, it appends a burst of 20 particles at the centre of the
    head cell in the food colour; with an empty snake it adds none. *)
Theorem game_over_records (reason : string) (g : game) :
  state (game_over reason g) = GAME_OVER
  /\ game_over_reason (game_over reason g) = reason
  /\ high_score (game_over reason g) = Z.max (high_score g) (score g)
  /\ score (game_over reason g) <= high_score (game_over reason g)
  /\ high_score g <= high_score (game_over reason g)
  /\ (snake g = [] -> particles (game_over reason g) = particles g)
  /\ (forall head rest,
        snake g = head :: rest ->
        particles_enabled (settings g) = true ->
        exists burst,
          particles (game_over reason g) = particles g ++ burst
          /\ List.length burst = 20%nat
          /\ Forall (fun p => p_centre p = cell_centre head
                              /\ p_color p = COLORS_food) burst).
Proof.
  destruct (game_over_spec reason g)
    as [H1 [H2 [_ [_ [_ [_ [_ [_ [_ [Hsc _]]]]]]]]]].
  destruct (game_over_high_score reason g) as [H3 _].
  split; [exact H1 |]. split; [exact H2 |]. split; [exact H3 |].
  split; [rewrite H3, Hsc; lia |]. split; [rewrite H3; lia |].
  unfold game_over.
  destruct (save_high_score_shape (set_game_over_reason reason g))
    as [hs ->].
  cbn [snake set_state set_high_score set_game_over_reason].
  split.
  - intros ->. reflexivity.
  - intros head rest -> Hon.
    match goal with |- context [create_particles head COLORS_food 20 ?g1] =>
      destruct (create_particles_on head COLORS_food 20 g1 Hon)
        as [burst [Hp [Hl Hall]]] end.
    exists burst. split; [exact Hp |]. split; [exact Hl |].
    apply Forall_forall. intros p Hin. rewrite Forall_forall in Hall.
    destruct (Hall p Hin) as [A [B _]]. auto.
Qed.

Lemma game_over_records_witness :
  state (game_over wall_reason turning_into_wall) = GAME_OVER
  /\ high_score (game_over wall_reason turning_into_wall) = 0
  /\ exists burst,
       particles (game_over wall_reason turning_into_wall)
       = particles turning_into_wall ++ burst
       /\ List.length burst = 20%nat
       /\ Forall (fun p => p_centre p = cell_centre (0, 0)
                           /\ p_color p = COLORS_food) burst.
Proof.
  destruct (game_over_records wall_reason turning_into_wall)
    as [H1 [_ [H3 [_ [_ [_ H7]]]]]].
  split; [exact H1 |]. split; [exact H3 |].
  apply (H7 (0, 0) []); reflexivity.
Defined.

(** ** Reset and food *)

(** X13.  After a reset the snake waits: a step on a freshly reset game in
    play changes nothing, because both directions are zero until a key is
    pressed. *)
Theorem reset_then_step_waits (g : game) :
  state g = PLAYING ->
  update_game (reset_game g) = Some (reset_game g).
Proof.
  intros Hs. destruct (reset_game_shape g) as [food [r [_ ->]]].
  destruct g as [W H GW GH st sn dir nd fd sc gr ps fps mt gt se hs rd].
  simpl in Hs. subst st.
  cbv [set_game_over_animation_time set_food_particles set_particles
       set_game_over_reason set_score set_food_pos set_rand
       update_grid_dimensions set_GRID_WIDTH set_GRID_HEIGHT
       set_next_direction set_direction set_snake
       WIDTH HEIGHT GRID_WIDTH GRID_HEIGHT state snake direction
       next_direction food_pos score game_over_reason particles
       food_particles menu_animation_time game_over_animation_time
       settings high_score rand].
  reflexivity.
Qed.

Lemma reset_then_step_waits_witness :
  update_game (reset_game going_up) = Some (reset_game going_up).
Proof. apply (reset_then_step_waits going_up). reflexivity. Defined.

(** X14.  Eating moves the food: when the new head lands on the food and
    some grid cell is neither the new head nor on the snake, the step
    places the food on a grid cell that is not the eaten cell and not on
    the grown snake. *)
Theorem eating_moves_food (g : game) (nh : Pos) :
  state g = PLAYING ->
  committed g <> (0, 0) ->
  new_head_of g = Some nh ->
  in_bounds g nh ->
  ~ In nh (snake g) ->
  nh = food_pos g ->
  (exists c, grid_cell g c /\ c <> nh /\ ~ In c (snake g)) ->
  exists g', update_game g = Some g'
    /\ snake g' = nh :: snake g
    /\ food_pos g' <> food_pos g
    /\ ~ In (food_pos g') (snake g')
    /\ grid_cell g' (food_pos g').
Proof.
  intros Hs Hc Hn Hin Hfree Hfood [c [Hcell [Hcn Hcfree]]].
  destruct (update_game_move_full g nh Hs Hc Hn Hin Hfree)
    as [g' [Hg' [_ [HW [HH [_ [_ [_ [_ [Heat _]]]]]]]]]].
  destruct (Heat Hfood) as [Hsn [_ [_ [_ [g0 [Hf [S0 [W0 H0]]]]]]]].
  assert (Hav : grid_cell g0 (fst (spawn_food g0))
                /\ ~ In (fst (spawn_food g0)) (snake g0)).
  { apply spawn_food_avoids. exists c. split.
    - unfold grid_cell, in_bounds. rewrite W0, H0. exact Hcell.
    - rewrite S0. intros [E | Hc']; [apply Hcn; symmetry; exact E |].
      contradiction. }
  destruct Hav as [Hgrid Hoff]. rewrite S0 in Hoff.
  exists g'. split; [exact Hg' |]. split; [exact Hsn |].
  rewrite Hf, Hsn. split; [| split].
  - intros E. apply Hoff. left. rewrite <- Hfood in E. symmetry. exact E.
  - exact Hoff.
  - unfold grid_cell, in_bounds in *. rewrite HW, HH, <- W0, <- H0.
    exact Hgrid.
Qed.

(** The scenario of the specification: the snake [(50,50)] eats the food at
    [(75,50)]; the new food is elsewhere and off the snake. *)
Lemma eating_moves_food_witness :
  exists g',
    update_game (playing 600 400 [(50, 50)] (25, 0) (0, 0) (75, 50))
    = Some g'
    /\ snake g' = [(75, 50); (50, 50)]
    /\ food_pos g' <> (75, 50)
    /\ ~ In (food_pos g') (snake g')
    /\ grid_cell g' (food_pos g').
Proof.
  apply (eating_moves_food
           (playing 600 400 [(50, 50)] (25, 0) (0, 0) (75, 50)) (75, 50)).
  - reflexivity.
  - discriminate.
  - reflexivity.
  - unfold in_bounds, inside; simpl; lia.
  - simpl. intros [H | []]. discriminate H.
  - reflexivity.
  - exists (0, 0). unfold grid_cell, in_bounds, inside; simpl.
    repeat split; try lia; try discriminate.
    intros [H | []]. discriminate H.
Defined.

(** X15.  [spawn_food] always returns non-negative multiples of the cell
    size, and in a window of more than one cell each way the position is
    inside the window, also when the board is full. *)
Theorem spawn_food_on_grid (g : game) :
  0 <= fst (fst (spawn_food g)) /\ 0 <= snd (fst (spawn_food g))
  /\ fst (fst (spawn_food g)) mod CELL_SIZE = 0
  /\ snd (fst (spawn_food g)) mod CELL_SIZE = 0
  /\ (CELL_SIZE < WIDTH g -> CELL_SIZE < HEIGHT g ->
      in_bounds g (fst (spawn_food g))).
Proof.
  pose proof (py_range_sorted 0 (WIDTH g) CELL_SIZE eq_refl) as Sx.
  pose proof (py_range_sorted 0 (HEIGHT g) CELL_SIZE eq_refl) as Sy.
  destruct (spawn_food_nonneg g) as [N1 N2].
  split; [exact N1 |]. split; [exact N2 |].
  split; [| split; [| apply spawn_food_inside]].
  - destruct (spawn_food_cases g) as [[p [g' [E ->]]] | [_ ->]].
    + destruct (spawn_trials_some _ _ _ _ E) as [_ [rx [ry [-> _]]]].
      simpl. apply Z.mod_mul. discriminate.
    + destruct (scan_grid _ _ _) as [p |] eqn:Hscan; [| reflexivity].
      destruct (scan_grid_some _ _ _ _ Sx Sy Hscan) as [H1 _].
      apply py_range_In in H1. apply H1.
  - destruct (spawn_food_cases g) as [[p [g' [E ->]]] | [_ ->]].
    + destruct (spawn_trials_some _ _ _ _ E) as [_ [rx [ry [-> _]]]].
      simpl. apply Z.mod_mul. discriminate.
    + destruct (scan_grid _ _ _) as [p |] eqn:Hscan; [| reflexivity].
      destruct (scan_grid_some _ _ _ _ Sx Sy Hscan) as [_ [H2 _]].
      apply py_range_In in H2. apply H2.
Qed.

Lemma spawn_food_on_grid_witness :
  in_bounds full_board (fst (spawn_food full_board)).
Proof.
  apply (spawn_food_on_grid full_board); reflexivity.
Defined.

(** ** Quitting *)

(** X16.  A quit key can be forgotten: in the menu or on the game-over
    screen the key Escape alone stops the loop, but when it is followed in
    the same frame by any event other than QUIT, a resize or another quit
    key, the later event sets [running] again and the loop goes on. *)
Theorem quit_key_forgotten (g : game) (event : Event) :
  state g = MENU \/ state g = GAME_OVER ->
  event = OtherEvent
  \/ (exists key, event = KEYDOWN key
        /\ Key_eqb key K_ESCAPE = false /\ Key_eqb key K_q = false) ->
  fst (pump [KEYDOWN K_ESCAPE] true g) = false
  /\ fst (pump [KEYDOWN K_ESCAPE; event] true g) = true.
Proof.
  intros Hs He. cbn [pump].
  destruct Hs as [Hs | Hs]; rewrite Hs.
  - change (handle_menu_events (KEYDOWN K_ESCAPE) g) with (false, g).
    cbn [pump fst]. split; [reflexivity |].
    destruct He as [-> | [key [-> [E1 E2]]]]; rewrite Hs.
    + reflexivity.
    + unfold handle_menu_events. rewrite E1, E2.
      destruct (Key_eqb key K_SPACE || Key_eqb key K_RETURN);
        [reflexivity |].
      destruct (Key_eqb key K_s); reflexivity.
  - change (handle_game_over_events (KEYDOWN K_ESCAPE) g) with (false, g).
    cbn [pump fst]. split; [reflexivity |].
    destruct He as [-> | [key [-> [E1 E2]]]]; rewrite Hs.
    + reflexivity.
    + unfold handle_game_over_events. rewrite E1, E2.
      destruct (Key_eqb key K_r || Key_eqb key K_SPACE);
        [reflexivity |].
      destruct (Key_eqb key K_m); reflexivity.
Qed.

Lemma quit_key_forgotten_witness :
  fst (pump [KEYDOWN K_ESCAPE] true
         (init default_settings 0 (mkRng [] []))) = false
  /\ fst (pump [KEYDOWN K_ESCAPE; OtherEvent] true
            (init default_settings 0 (mkRng [] []))) = true.
Proof.
  apply (quit_key_forgotten (init default_settings 0 (mkRng [] []))
           OtherEvent).
  - left. vm_compute. reflexivity.
  - left. reflexivity.
Defined.

(** ** The life of particles *)

Lemma inject_nat_succ (n : nat) :
  (inject_Z (Z.of_nat (S n)) == inject_Z (Z.of_nat n) + 1)%Q.
Proof. rewrite Nat2Z.inj_succ. unfold Z.succ. rewrite inject_Z_plus. reflexivity. Qed.

Lemma alive_positive (life : Q) :
  negb (Qle_bool life 0) = true -> (0 < life)%Q.
Proof.
  intros H. apply negb_true_iff in H. apply Qnot_le_lt. intros Hle.
  apply Qle_bool_iff in Hle. congruence.
Qed.

(** One update of the explosion pool: the survivors are alive and one
    frame older. *)
Lemma update_particles_pool (g : game) (bound : Q) :
  Forall (fun p => p_life p <= bound)%Q (particles g) ->
  Forall (fun p => 0 < p_life p /\ p_life p <= bound - 1)%Q
         (particles (update_particles g)).
Proof.
  intros Hall. rewrite Forall_forall in Hall. apply Forall_forall.
  intros p Hin. cbn [update_particles particles set_particles
                     set_food_particles] in Hin.
  apply filter_In in Hin. destruct Hin as [Hin Halive].
  apply in_map_iff in Hin. destruct Hin as [p0 [<- Hp0]].
  split; [apply alive_positive; exact Halive |].
  specialize (Hall p0 Hp0). cbv beta in Hall.
  cbn [p_life step_particle]. clear Halive Hp0. lra.
Qed.

Lemma update_particles_food_pool (g : game) (bound : Q) :
  Forall (fun p => fp_life p <= bound)%Q (food_particles g) ->
  Forall (fun p => 0 < fp_life p /\ fp_life p <= bound - 1)%Q
         (food_particles (update_particles g)).
Proof.
  intros Hall. rewrite Forall_forall in Hall. apply Forall_forall.
  intros p Hin. cbn [update_particles food_particles set_particles
                     set_food_particles] in Hin.
  apply filter_In in Hin. destruct Hin as [Hin Halive].
  apply in_map_iff in Hin. destruct Hin as [p0 [<- Hp0]].
  split; [apply alive_positive; exact Halive |].
  specialize (Hall p0 Hp0). cbv beta in Hall.
  cbn [fp_life step_food_particle]. clear Halive Hp0. lra.
Qed.

Lemma Forall_weaken {A : Type} (P Q : A -> Prop) (l : list A) :
  (forall x, P x -> Q x) -> Forall P l -> Forall Q l.
Proof. intros H Hl. induction Hl; constructor; auto. Qed.

Lemma Forall_absurd {A : Type} (P : A -> Prop) (l : list A) :
  (forall x, ~ P x) -> Forall P l -> l = [].
Proof.
  intros H Hl. destruct Hl as [| x l Hx _]; [reflexivity |].
  exfalso. apply (H x Hx).
Qed.

Section Ageing.

Variable A : Type.
Variable life : A -> Q.
Variable n : Q.

Lemma older_zero (p : A) :
  (life p <= n)%Q -> (life p <= n - inject_Z (Z.of_nat 0))%Q.
Proof.
  change (inject_Z (Z.of_nat 0)) with 0%Q. intros H. lra.
Qed.

Lemma older_succ (m : nat) (p : A) :
  (0 < life p /\ life p <= n - inject_Z (Z.of_nat m) - 1)%Q ->
  (life p <= n - inject_Z (Z.of_nat (S m)))%Q.
Proof.
  intros [_ H]. pose proof (inject_nat_succ m) as Hs.
  revert H Hs.
  generalize (inject_Z (Z.of_nat (S m))), (inject_Z (Z.of_nat m)).
  intros a b H Hs. lra.
Qed.

End Ageing.

Lemma older_last {A : Type} (life : A -> Q) (n : nat) (p : A) :
  ~ (0 < life p
     /\ life p <= inject_Z (Z.of_nat (S n)) - inject_Z (Z.of_nat n) - 1)%Q.
Proof.
  intros [H1 H2]. pose proof (inject_nat_succ n) as Hs.
  revert H2 Hs.
  generalize (inject_Z (Z.of_nat (S n))), (inject_Z (Z.of_nat n)).
  intros a b H2 Hs. lra.
Qed.

(** X17.  Particles expire: when every particle of both pools has a life
    of at most [n] frames, with [n] at least one, then [n] calls of
    [update_particles] empty both pools. *)
Theorem particles_expire (n : nat) (g : game) :
  (0 < n)%nat ->
  Forall (fun p => p_life p <= inject_Z (Z.of_nat n))%Q (particles g) ->
  Forall (fun p => fp_life p <= inject_Z (Z.of_nat n))%Q
         (food_particles g) ->
  particles (Nat.iter n update_particles g) = []
  /\ food_particles (Nat.iter n update_particles g) = [].
Proof.
  intros Hn Hp Hf.
  assert (Hm : forall m, (m <= n)%nat ->
            Forall (fun p => p_life p
                             <= inject_Z (Z.of_nat n) - inject_Z (Z.of_nat m))%Q
                   (particles (Nat.iter m update_particles g))
            /\ Forall (fun p => fp_life p
                                <= inject_Z (Z.of_nat n)
                                   - inject_Z (Z.of_nat m))%Q
                      (food_particles (Nat.iter m update_particles g))).
  { induction m as [| m IH]; intros Hle.
    - simpl Nat.iter. split.
      + apply (Forall_weaken _ _ _ (older_zero _ p_life _) Hp).
      + apply (Forall_weaken _ _ _ (older_zero _ fp_life _) Hf).
    - destruct (IH ltac:(lia)) as [IHp IHf]. simpl Nat.iter.
      split.
      + apply (Forall_weaken _ _ _ (older_succ _ p_life _ m)
                 (update_particles_pool _ _ IHp)).
      + apply (Forall_weaken _ _ _ (older_succ _ fp_life _ m)
                 (update_particles_food_pool _ _ IHf)). }
  destruct n as [| n]; [lia |].
  destruct (Hm n ltac:(lia)) as [Hp' Hf']. simpl Nat.iter.
  split.
  - apply (Forall_absurd _ _ (older_last p_life n)
             (update_particles_pool _ _ Hp')).
  - apply (Forall_absurd _ _ (older_last fp_life n)
             (update_particles_food_pool _ _ Hf')).
Qed.

Lemma particles_expire_witness :
  particles (Nat.iter 30 update_particles
               (create_particles (0, 0) COLORS_food 2 going_up)) = []
  /\ food_particles (Nat.iter 30 update_particles
                       (create_particles (0, 0) COLORS_food 2 going_up))
     = [].
Proof.
  apply (particles_expire 30
           (create_particles (0, 0) COLORS_food 2 going_up)).
  - lia.
  - vm_compute. repeat constructor; intros H; discriminate H.
  - vm_compute. constructor.
Defined.

(** ** Pausing *)

(** X19.  Pause and resume is a round trip: for a game in play, the pause
    key followed by a resume key (Escape or Space) gives back the same
    game and leaves [running] as it was. *)
Theorem pause_resume_round_trip (g : game) (resume : Key) (running : bool) :
  state g = PLAYING ->
  resume = K_ESCAPE \/ resume = K_SPACE ->
  pump [KEYDOWN K_ESCAPE; KEYDOWN resume] running g = (running, g).
Proof.
  intros Hs Hr.
  destruct g as [W H GW GH st sn dir nd fd sc gr ps fps mt gt se hs rd].
  simpl in Hs. subst st.
  destruct Hr as [-> | ->]; reflexivity.
Qed.

Lemma pause_resume_round_trip_witness :
  pump [KEYDOWN K_ESCAPE; KEYDOWN K_SPACE] true square_snake
  = (true, square_snake).
Proof.
  apply (pause_resume_round_trip square_snake K_SPACE true).
  - reflexivity.
  - right. reflexivity.
Defined.

(** X20.  A resize while paused is not validated: pausing a game in play,
    resizing and resuming gives a game in play in the new window with the
    snake, the food, the score and the directions as they were, whether or
    not they still lie inside the window. *)
Theorem paused_resize_not_validated (g : game) (w h : Z) (running : bool) :
  state g = PLAYING ->
  fst (pump [KEYDOWN K_ESCAPE; VIDEORESIZE w h; KEYDOWN K_ESCAPE] running g)
  = running
  /\ state (snd (pump [KEYDOWN K_ESCAPE; VIDEORESIZE w h; KEYDOWN K_ESCAPE]
                   running g)) = PLAYING
  /\ WIDTH (snd (pump [KEYDOWN K_ESCAPE; VIDEORESIZE w h; KEYDOWN K_ESCAPE]
                   running g)) = snapped w MIN_WIDTH
  /\ HEIGHT (snd (pump [KEYDOWN K_ESCAPE; VIDEORESIZE w h; KEYDOWN K_ESCAPE]
                    running g)) = snapped h MIN_HEIGHT
  /\ snake (snd (pump [KEYDOWN K_ESCAPE; VIDEORESIZE w h; KEYDOWN K_ESCAPE]
                   running g)) = snake g
  /\ food_pos (snd (pump [KEYDOWN K_ESCAPE; VIDEORESIZE w h;
                          KEYDOWN K_ESCAPE] running g)) = food_pos g
  /\ score (snd (pump [KEYDOWN K_ESCAPE; VIDEORESIZE w h; KEYDOWN K_ESCAPE]
                   running g)) = score g
  /\ direction (snd (pump [KEYDOWN K_ESCAPE; VIDEORESIZE w h;
                           KEYDOWN K_ESCAPE] running g)) = direction g
  /\ next_direction (snd (pump [KEYDOWN K_ESCAPE; VIDEORESIZE w h;
                                KEYDOWN K_ESCAPE] running g))
     = next_direction g.
Proof.
  intros Hs.
  destruct g as [W H GW GH st sn dir nd fd sc gr ps fps mt gt se hs rd].
  simpl in Hs. subst st.
  repeat split; reflexivity.
Qed.

(** The snake beyond the right edge of the shrunk window stays in play. *)
Lemma paused_resize_not_validated_witness :
  state (snd (pump [KEYDOWN K_ESCAPE; VIDEORESIZE 600 400; KEYDOWN K_ESCAPE]
                true far_right)) = PLAYING
  /\ WIDTH (snd (pump [KEYDOWN K_ESCAPE; VIDEORESIZE 600 400;
                       KEYDOWN K_ESCAPE] true far_right)) = 600
  /\ snake (snd (pump [KEYDOWN K_ESCAPE; VIDEORESIZE 600 400;
                       KEYDOWN K_ESCAPE] true far_right))
     = [(800, 500); (775, 500)].
Proof.
  destruct (paused_resize_not_validated far_right 600 400 true eq_refl)
    as [_ [H1 [H2 [_ [H3 _]]]]].
  split; [exact H1 |]. split; [exact H2 | exact H3].
Defined.
